(** * standards_scraper: a shallow embedding of [standards_scraper.py]

    The script downloads two PDF tables of weightlifting qualification
    totals, turns the extracted text into records and prints the merged
    table as a TypeScript literal.  Everything after text extraction is
    pure string processing and is embedded here function by function:
    [clean_text], [extract_section_data], the section loop of
    [scrape_weightlifting_standards], [weight_class_sort_key] and
    [format_as_typescript].

    Modelling conventions.
    - A Python [str] is a [list ascii]; a character is a code point in
      0..255.  On that range the tables Python consults are small and
      fixed: [str.isspace] and the regex class [\s] hold for
      9..13, 28..31, 32, 133 and 160; [\d] holds for the ten ASCII digits;
      and under [re.IGNORECASE] a pattern letter matches exactly its two
      ASCII cases.
    - An exception is an [Err] value of the [result] type; the code never
      catches one, so an [Err] aborts the run.
    - A [dict] is an association list in insertion order (the order Python
      iterates in); assigning to a key that is present keeps its place.
    - [float(s)] follows the grammar of the built-in (blanks around, a
      sign, digits with underscores between them, a fraction, an exponent,
      [inf], [infinity], [nan]) and rounds to the nearest double, ties to
      even; [int] truncates.
    - [sorted] is a stable sort by [<] on the keys.
    - [print] calls only write diagnostics and are left out. *)

From Stdlib Require Import Ascii String.
From Stdlib Require Import List ZArith Lia Bool Arith.
From Stdlib Require Import Sorting.Sorted Sorting.Permutation.
From Stdlib Require Import Numbers.DecimalString.
Import ListNotations.

Set Implicit Arguments.

(** ** Strings *)

Definition str := list ascii.

(** [L "abc"] is the Python literal ['abc']. *)
Definition L (s : string) : list ascii := list_ascii_of_string s.

Definition code (c : ascii) : N := N_of_ascii c.

Definition nbsp : ascii := "160"%char.       (* '\xa0' *)
Definition newline : ascii := "010"%char.    (* '\n' *)
Definition dquote : ascii := "034"%char.     (* the double quote *)

Fixpoint str_eqb (a b : str) : bool :=
  match a, b with
  | [], [] => true
  | x :: a', y :: b' => Ascii.eqb x y && str_eqb a' b'
  | _, _ => false
  end.

(** [str.isspace] on one character (also the regex class [\s]). *)
Definition isspace (c : ascii) : bool :=
  let n := code c in
  ((9 <=? n) && (n <=? 13) || (28 <=? n) && (n <=? 32)
   || (n =? 133) || (n =? 160))%N.

(** The regex class [\d] (also the digits [float] accepts). *)
Definition isdigit (c : ascii) : bool :=
  let n := code c in ((48 <=? n) && (n <=? 57))%N.

(** Simple lower-casing; only the ASCII letters matter for the patterns
    of this program. *)
Definition lower (c : ascii) : ascii :=
  let n := code c in
  if ((65 <=? n) && (n <=? 90))%N then ascii_of_N (n + 32) else c.

(** [s.startswith(p)] *)
Fixpoint startswith (p s : str) : bool :=
  match p, s with
  | [], _ => true
  | x :: p', y :: s' => Ascii.eqb x y && startswith p' s'
  | _ :: _, [] => false
  end.

(** [s.find(sub)]: the least index at which [sub] occurs, [None] for -1. *)
Fixpoint find_from (sub s : str) (pos : nat) : option nat :=
  if startswith sub s then Some pos
  else match s with
       | [] => None
       | _ :: s' => find_from sub s' (S pos)
       end.

Definition find (sub s : str) : option nat := find_from sub s 0.

(** [sub in s] *)
Definition contains (sub s : str) : bool :=
  match find sub s with Some _ => true | None => false end.

(** [s[a:b]] for non-negative [a] and [b]; empty when [b <= a]. *)
Definition slice (s : str) (a b : nat) : str := firstn (b - a) (skipn a s).

(** [s.strip()] *)
Fixpoint lstrip (s : str) : str :=
  match s with
  | c :: s' => if isspace c then lstrip s' else s
  | [] => []
  end.

Definition rstrip (s : str) : str := rev (lstrip (rev s)).

Definition strip (s : str) : str := rstrip (lstrip s).

(** [s.split()]: the maximal runs of non-whitespace characters.  [cur] is
    the run being read, reversed. *)
Fixpoint split_ws_aux (cur : str) (s : str) : list str :=
  match s with
  | [] => match cur with [] => [] | _ => [rev cur] end
  | c :: s' =>
      if isspace c
      then match cur with
           | [] => split_ws_aux [] s'
           | _ => rev cur :: split_ws_aux [] s'
           end
      else split_ws_aux (c :: cur) s'
  end.

Definition split_ws (s : str) : list str := split_ws_aux [] s.

(** [s.replace(old, new)]: occurrences are replaced from left to right
    and do not overlap.  [skip] counts the characters of an occurrence
    still to be dropped. *)
Fixpoint replace_aux (old new : str) (skip : nat) (s : str) : str :=
  match s with
  | [] => []
  | c :: s' =>
      match skip with
      | S k => replace_aux old new k s'
      | O => if startswith old s
             then new ++ replace_aux old new (length old - 1) s'
             else c :: replace_aux old new 0 s'
      end
  end.

Definition replace (old new s : str) : str :=
  match old with
  | [] => new ++ flat_map (fun c => c :: new) s
  | _ => replace_aux old new 0 s
  end.

(** [s.split(' ', 1)]: cut at the first occurrence of the separator
    character; [None] when there is none (the list then has one element). *)
Fixpoint split_first (sep : ascii) (s : str) : option (str * str) :=
  match s with
  | [] => None
  | c :: s' =>
      if Ascii.eqb c sep then Some ([], s')
      else match split_first sep s' with
           | Some (a, b) => Some (c :: a, b)
           | None => None
           end
  end.

(** Lexicographic comparison of strings by code point, as Python's [<]. *)
Fixpoint str_compare (a b : str) : comparison :=
  match a, b with
  | [], [] => Eq
  | [], _ :: _ => Lt
  | _ :: _, [] => Gt
  | x :: a', y :: b' =>
      match N.compare (code x) (code y) with
      | Eq => str_compare a' b'
      | c => c
      end
  end.

Definition str_ltb (a b : str) : bool :=
  match str_compare a b with Lt => true | _ => false end.

(** ** Exceptions *)

Inductive exn := ValueError | OverflowError | KeyError | IndexError.

Inductive result (A : Type) :=
| Ok (x : A)
| Err (e : exn).
Arguments Ok {A} x.
Arguments Err {A} e.

Definition bind {A B} (r : result A) (f : A -> result B) : result B :=
  match r with Ok x => f x | Err e => Err e end.

Notation "x <- e ;; k" := (bind e (fun x => k))
  (at level 61, e at next level, right associativity).
Notation "' p <- e ;; k" := (bind e (fun p => k))
  (at level 61, p pattern, e at next level, right associativity).

Fixpoint mapM {A B} (f : A -> result B) (l : list A) : result (list B) :=
  match l with
  | [] => Ok []
  | x :: l' => y <- f x ;; ys <- mapM f l' ;; Ok (y :: ys)
  end.

(** ** Regular expressions

    A backtracking matcher with Python's priorities: alternatives are
    tried left to right, repetitions are greedy, and a later failure
    returns to the latest choice.  Only the constructs of the three
    patterns of the script are present.  The matcher reads a suffix of the
    subject and passes what is left, and the text of group 1, to its
    continuation. *)

Inductive cset_item :=
| CChar (c : ascii)          (* a literal member of a set *)
| CSpace.                    (* [\s] inside a set *)

Inductive regex :=
| Lit (c : ascii)            (* one literal character *)
| Space                      (* [\s] *)
| Digit                      (* [\d] *)
| CSet (items : list cset_item)   (* [[...]] *)
| Eps                        (* the empty pattern *)
| Seq (r1 r2 : regex)
| Alt (r1 r2 : regex)        (* [r1|r2] *)
| Star (r : regex)           (* [r*], greedy *)
| Group (r : regex)          (* [(r)], capturing group 1 *)
| Eol.                       (* [$] *)

Definition Plus (r : regex) : regex := Seq r (Star r).     (* [r+] *)
Definition Opt (r : regex) : regex := Alt r Eps.           (* [r?] *)

Fixpoint lits (s : str) : regex :=                         (* [abc] *)
  match s with
  | [] => Eps
  | [c] => Lit c
  | c :: s' => Seq (Lit c) (lits s')
  end.

(** What a successful match leaves: the unread rest of the subject and
    group 1, if it took part. *)
Record mobj := { m_rest : str; m_group1 : option str }.

Section Matcher.

(** The flag [re.IGNORECASE]. *)
Variable ignorecase : bool.

Definition chr_matches (pat x : ascii) : bool :=
  if ignorecase then Ascii.eqb (lower x) (lower pat) else Ascii.eqb x pat.

Definition item_matches (it : cset_item) (x : ascii) : bool :=
  match it with
  | CChar c => chr_matches c x
  | CSpace => isspace x
  end.

Definition cont := str -> option str -> option mobj.

Definition one (p : ascii -> bool) (s : str) (cap : option str) (k : cont)
  : option mobj :=
  match s with
  | x :: s' => if p x then k s' cap else None
  | [] => None
  end.

(** An iteration of [r*] that reads nothing is not taken; in the
    patterns below every iteration reads at least one character.  As each
    iteration shortens the subject, [fuel], its length at the start, is
    never used up before the subject is. *)
Fixpoint rmatch (r : regex) (s : str) (cap : option str) (k : cont)
  {struct r} : option mobj :=
  match r with
  | Lit c => one (chr_matches c) s cap k
  | Space => one isspace s cap k
  | Digit => one isdigit s cap k
  | CSet items => one (fun x => existsb (fun it => item_matches it x) items) s cap k
  | Eps => k s cap
  | Seq r1 r2 => rmatch r1 s cap (fun s' cap' => rmatch r2 s' cap' k)
  | Alt r1 r2 =>
      match rmatch r1 s cap k with
      | Some m => Some m
      | None => rmatch r2 s cap k
      end
  | Star r1 =>
      (fix iter (fuel : nat) (s : str) (cap : option str) : option mobj :=
         match fuel with
         | O => k s cap
         | S fuel' =>
             match rmatch r1 s cap
                     (fun s' cap' =>
                        if length s' <? length s then iter fuel' s' cap'
                        else None) with
             | Some m => Some m
             | None => k s cap
             end
         end) (length s) s cap
  | Group r1 =>
      rmatch r1 s cap
        (fun s' _ => k s' (Some (firstn (length s - length s') s)))
  | Eol =>
      match s with
      | [] => k s cap
      | [c] => if Ascii.eqb c newline then k s cap else None
      | _ => None
      end
  end.

(** A match anchored at the start of [s]. *)
Definition match_here (r : regex) (s : str) : option mobj :=
  rmatch r s None (fun s' cap => Some {| m_rest := s'; m_group1 := cap |}).

(** [re.search]: the match at the leftmost position that has one. *)
Fixpoint re_search (r : regex) (s : str) : option mobj :=
  match match_here r s with
  | Some m => Some m
  | None => match s with
            | [] => None
            | _ :: s' => re_search r s'
            end
  end.

(** [re.sub(r, repl, s)]: matches are replaced from left to right; after
    an empty match one character is copied. *)
Fixpoint re_sub_aux (fuel : nat) (r : regex) (repl s : str) : str :=
  match fuel with
  | O => s
  | S fuel' =>
      match match_here r s with
      | Some m =>
          if length (m_rest m) <? length s
          then repl ++ re_sub_aux fuel' r repl (m_rest m)
          else repl ++ match s with
                       | [] => []
                       | c :: s' => c :: re_sub_aux fuel' r repl s'
                       end
      | None =>
          match s with
          | [] => []
          | c :: s' => c :: re_sub_aux fuel' r repl s'
          end
      end
  end.

Definition re_sub (r : regex) (repl s : str) : str :=
  re_sub_aux (S (length s)) r repl s.

End Matcher.

(** [m.group(1)]; group 1 is not optional in the patterns below. *)
Definition group_1 (m : mobj) : str :=
  match m_group1 m with Some g => g | None => [] end.

(** ** [clean_text] *)

(** [r'\s+'] *)
Definition ws_pattern : regex := Plus Space.

Definition clean_text (text : str) : str :=
  let text := re_sub false ws_pattern (L " ") text in
  let text := replace [nbsp] (L " ") text in
  strip text.

(** ** [extract_section_data] *)

(** [\d+(?:\.\d+)?kg|\+\d+kg] *)
Definition weight_token : regex :=
  Alt (Seq (Plus Digit) (Seq (Opt (Seq (Lit ".") (Plus Digit))) (lits (L "kg"))))
      (Seq (Lit "+") (Seq (Plus Digit) (lits (L "kg")))).

(** [(?:Weight class|Class)[:\s]*(G)], where the group G is
    [T(?:\s+T)*] for the token T above. *)
Definition weight_pattern : regex :=
  Seq (Alt (lits (L "Weight class")) (lits (L "Class")))
 (Seq (Star (CSet [CChar ":"; CSpace]))
      (Group (Seq weight_token (Star (Seq (Plus Space) weight_token))))).

(** [\d+(?:kg)?] *)
Definition total_token : regex := Seq (Plus Digit) (Opt (lits (L "kg"))).

(** [Total[:\s]*(G)(?:\s|$)], where the group G is [T(?:\s+T)*] for
    the token T above. *)
Definition total_pattern : regex :=
  Seq (lits (L "Total"))
 (Seq (Star (CSet [CChar ":"; CSpace]))
 (Seq (Group (Seq total_token (Star (Seq (Plus Space) total_token))))
      (Alt Space Eol))).

Definition nonempty (s : str) : bool :=
  match s with [] => false | _ => true end.

(** [[w.strip() for w in weight_line.group(1).split() if w.strip()]] *)
Definition weight_classes_of (weight_line : mobj) : list str :=
  map strip
      (filter (fun w => nonempty (strip w)) (split_ws (group_1 weight_line))).

(** [[t.replace('kg', '').strip() for t in total_line.group(1).split()
      if t.strip()]] *)
Definition totals_of (total_line : mobj) : list str :=
  map (fun t => strip (replace (L "kg") [] t))
      (filter (fun t => nonempty (strip t)) (split_ws (group_1 total_line))).

Definition extract_section_data (section_text : str) : list str * list str :=
  let weight_line := re_search true weight_pattern section_text in
  let total_line := re_search true total_pattern section_text in
  match weight_line, total_line with
  | Some weight_line, Some total_line =>
      (weight_classes_of weight_line, totals_of total_line)
  | _, _ => ([], [])
  end.

(** ** The section loop of [scrape_weightlifting_standards] *)

(** One scraped row: the dict with keys ["Age Group"], ["Weight Class"]
    and ["Weight Standard"]. *)
Record entry := {
  age_group : str;
  weight_class : str;
  weight_standard : str
}.

Definition age_groups : list str :=
  [L "Youth Women"; L "Youth Men"; L "Junior Women"; L "Junior Men";
   L "Senior Women"; L "Senior Men"].

(** [group + ":"] *)
Definition label (group : str) : str := group ++ L ":".

(** The inner loop over [age_groups[i+1:]]: the offset of the first later
    label that [find] locates, else [len(text)]. *)
Fixpoint next_section_start (text : str) (later : list str) : nat :=
  match later with
  | [] => length text
  | next_group :: more =>
      match find (label next_group) text with
      | Some next_pos => next_pos
      | None => next_section_start text more
      end
  end.

(** The section of [group], when its label is found; [later] is
    [age_groups[i+1:]]. *)
Definition section_text (text group : str) (later : list str) : option str :=
  match find (label group) text with
  | None => None
  | Some section_start =>
      Some (slice text section_start (next_section_start text later))
  end.

(** The rows one section appends to [data]. *)
Definition section_records (group section : str) : list entry :=
  let (weight_classes, totals) := extract_section_data section in
  if length weight_classes =? length totals
  then map (fun p => {| age_group := group;
                        weight_class := fst p;
                        weight_standard := snd p |})
           (combine weight_classes totals)
  else [].

Fixpoint scrape_loop (text : str) (groups : list str) (data : list entry)
  : list entry :=
  match groups with
  | [] => data
  | group :: later =>
      match section_text text group later with
      | None => scrape_loop text later data
      | Some section =>
          scrape_loop text later (data ++ section_records group section)
      end
  end.

(** [scrape_weightlifting_standards], from the text the PDF reader
    returned. *)
Definition scrape_text (raw : str) : list entry :=
  scrape_loop (clean_text raw) age_groups [].

(** ** [float] and [int]

    A finite double is kept as the integer [k] with value [k * 2^-1074]
    (every finite double is such a multiple; the two zeros are not told
    apart, which neither [<], [==] nor [int] can do either). *)

Inductive pyfloat :=
| FNan
| FInf (negative : bool)
| FFin (k : Z).

Definition ulp_exp : Z := 1074.

Definition round_half_even (a b : Z) : Z :=
  let q := (a / b)%Z in
  let r := (a mod b)%Z in
  if (2 * r <? b)%Z then q
  else if (b <? 2 * r)%Z then (q + 1)%Z
  else if Z.even q then q else (q + 1)%Z.

(** The double nearest to [n / d] (ties to even), for [n >= 0], [d > 0]. *)
Definition round_double (n d : Z) : pyfloat :=
  let a := (n * 2 ^ ulp_exp)%Z in
  let q := (a / d)%Z in
  let k := if (q <? 2 ^ 53)%Z then round_half_even a d
           else let sh := (Z.log2 q - 52)%Z in
                (round_half_even a (d * 2 ^ sh) * 2 ^ sh)%Z in
  if (2 ^ (1024 + ulp_exp) <=? k)%Z then FInf false else FFin k.

Definition float_neg (f : pyfloat) : pyfloat :=
  match f with
  | FNan => FNan
  | FInf s => FInf (negb s)
  | FFin k => FFin (- k)
  end.

(** The whitespace [float] strips: the ASCII blanks and, of the other
    characters, those [str.isspace] accepts. *)
Definition isspace_float (c : ascii) : bool :=
  let n := code c in
  ((9 <=? n) && (n <=? 13) || (n =? 32) || (n =? 133) || (n =? 160))%N.

Fixpoint lstrip_float (s : str) : str :=
  match s with
  | c :: s' => if isspace_float c then lstrip_float s' else s
  | [] => []
  end.

Definition strip_float (s : str) : str :=
  rev (lstrip_float (rev (lstrip_float s))).

(** Underscores are allowed between two digits only, and are dropped. *)
Fixpoint drop_underscores (prev : ascii) (s : str) : option str :=
  match s with
  | [] => if Ascii.eqb prev "_" then None else Some []
  | c :: s' =>
      if Ascii.eqb c "_"
      then if isdigit prev then drop_underscores c s' else None
      else if Ascii.eqb prev "_" && negb (isdigit c) then None
           else option_map (cons c) (drop_underscores c s')
  end.

Fixpoint span_digits (s : str) : str * str :=
  match s with
  | c :: s' => if isdigit c
               then let (ds, rest) := span_digits s' in (c :: ds, rest)
               else ([], s)
  | [] => ([], [])
  end.

Definition digit_val (c : ascii) : Z := Z.of_N (code c - 48).

Definition decimal_val (ds : str) : Z :=
  fold_left (fun acc c => (10 * acc + digit_val c)%Z) ds 0%Z.

(** [sign? digits] of an exponent, which must be all of [s]. *)
Definition parse_exponent (s : str) : option Z :=
  let (neg, s1) := match s with
                   | "-"%char :: t => (true, t)
                   | "+"%char :: t => (false, t)
                   | _ => (false, s)
                   end in
  match span_digits s1 with
  | ((_ :: _) as ds, []) =>
      Some (if neg then (- decimal_val ds)%Z else decimal_val ds)
  | _ => None
  end.

(** An unsigned decimal literal: digits, an optional fraction, an optional
    exponent; at least one digit before the exponent. *)
Definition parse_decimal (s : str) : option pyfloat :=
  let (ip, s1) := span_digits s in
  let (fp, s2) := match s1 with
                  | "."%char :: t => span_digits t
                  | _ => ([], s1)
                  end in
  match ip ++ fp with
  | [] => None
  | ds =>
      let e := match s2 with
               | [] => Some 0%Z
               | c :: t => if Ascii.eqb (lower c) "e" then parse_exponent t
                           else None
               end in
      match e with
      | None => None
      | Some e =>
          let e10 := (e - Z.of_nat (length fp))%Z in
          let m := decimal_val ds in
          Some (if (0 <=? e10)%Z then round_double (m * 10 ^ e10) 1
                else round_double m (10 ^ (- e10)))
      end
  end.

Definition parse_unsigned (s : str) : option pyfloat :=
  let low := map lower s in
  if str_eqb low (L "inf") || str_eqb low (L "infinity") then Some (FInf false)
  else if str_eqb low (L "nan") then Some FNan
  else parse_decimal s.

(** [float(s)] for a string [s]. *)
Definition float_of_str (s : str) : result pyfloat :=
  match drop_underscores zero s with
  | None => Err ValueError
  | Some s =>
      let (neg, body) := match strip_float s with
                         | "-"%char :: t => (true, t)
                         | "+"%char :: t => (false, t)
                         | t => (false, t)
                         end in
      match parse_unsigned body with
      | None => Err ValueError
      | Some f => Ok (if neg then float_neg f else f)
      end
  end.

(** [int(x)] for a float [x]: truncation towards zero. *)
Definition int_of_float (f : pyfloat) : result Z :=
  match f with
  | FNan => Err ValueError
  | FInf _ => Err OverflowError
  | FFin k => Ok (Z.quot k (2 ^ ulp_exp))
  end.

(** [a < b] and [a == b] on floats. *)
Definition float_ltb (a b : pyfloat) : bool :=
  match a, b with
  | FNan, _ | _, FNan => false
  | FFin x, FFin y => (x <? y)%Z
  | FInf sa, FInf sb => sa && negb sb
  | FInf sa, FFin _ => sa
  | FFin _, FInf sb => negb sb
  end.

Definition float_eqb (a b : pyfloat) : bool :=
  match a, b with
  | FFin x, FFin y => (x =? y)%Z
  | FInf sa, FInf sb => Bool.eqb sa sb
  | _, _ => false
  end.

(** [str(n)] for an int [n]. *)
Definition str_of_int (n : Z) : str :=
  list_ascii_of_string (NilZero.string_of_int (Z.to_int n)).

(** ** [weight_class_sort_key] *)

Definition sort_key := (str * pyfloat)%type.

Definition weight_class_sort_key (weight_class : str) : result sort_key :=
  match split_first " " weight_class with
  | None => Err ValueError             (* nothing to unpack into [weight] *)
  | Some (gender, weight) =>
      if startswith (L "+") weight then Ok (gender, FInf false)
      else w <- float_of_str (replace (L "kg") [] weight) ;; Ok (gender, w)
  end.

(** [k1 < k2] on the key tuples: the first components that differ
    decide. *)
Definition key_ltb (k1 k2 : sort_key) : bool :=
  if str_eqb (fst k1) (fst k2)
  then if float_eqb (snd k1) (snd k2) then false
       else float_ltb (snd k1) (snd k2)
  else str_ltb (fst k1) (fst k2).

(** [sorted(items, key=...)]: every key is computed first, then the items
    are put in order by a stable sort on [<] of the keys.  Python fixes
    the outcome of the sort only when [<] orders the keys consistently,
    which a NaN key breaks. *)
Section Sorted.

Variables (A K : Type) (ltb : K -> K -> bool).

(** [x] goes after the items whose key is below its own and before
    the rest, so that of two items with equal keys the one that came
    first stays first. *)
Fixpoint insert_stable (x : K * A) (l : list (K * A)) : list (K * A) :=
  match l with
  | [] => [x]
  | y :: l' => if ltb (fst y) (fst x) then y :: insert_stable x l'
               else x :: l
  end.

Fixpoint stable_sort (l : list (K * A)) : list (K * A) :=
  match l with
  | [] => []
  | x :: l' => insert_stable x (stable_sort l')
  end.

End Sorted.

(** ** [format_as_typescript] *)

(** The leaf dict [{"a": ..., "b": ...}]. *)
Record leaf := { a : Z; b : Z }.

(** A [dict] with string keys, in insertion order. *)
Definition dict (V : Type) := list (str * V).

Fixpoint dict_get {V} (k : str) (d : dict V) : option V :=
  match d with
  | [] => None
  | (k', v) :: d' => if str_eqb k k' then Some v else dict_get k d'
  end.

(** [d[k] = v] *)
Fixpoint dict_set {V} (k : str) (v : V) (d : dict V) : dict V :=
  match d with
  | [] => [(k, v)]
  | (k', v') :: d' =>
      if str_eqb k k' then (k', v) :: d' else (k', v') :: dict_set k v d'
  end.

Definition table := dict (dict leaf).

(** The initial [age_group_data]. *)
Definition empty_table : table :=
  [(L "Youth", []); (L "Junior", []); (L "Senior", [])].

(** The three values every loop body derives from an entry: the bracket
    (first word of the age group), the gendered weight class and the
    integer standard. *)
Definition entry_key (e : entry) : result (str * str * Z) :=
  match split_ws (age_group e) with
  | [] => Err IndexError
  | bracket :: _ =>
      let gender := if contains (L "Women") (age_group e)
                    then L "Female" else L "Male" in
      let wc := gender ++ L " " ++ weight_class e in
      x <- float_of_str (weight_standard e) ;;
      standard <- int_of_float x ;;
      Ok (bracket, wc, standard)
  end.

(** One pass of the loop over [a_data]. *)
Definition process_a (data : table) (e : entry) : result table :=
  ' (bracket, wc, standard_a) <- entry_key e ;;
  match dict_get bracket data with
  | None => Err KeyError
  | Some weights =>
      match dict_get wc weights with
      | None =>
          Ok (dict_set bracket
                (dict_set wc {| a := standard_a; b := 0 |} weights) data)
      | Some _ => Ok data
      end
  end.

(** One pass of the loop over [b_data]. *)
Definition process_b (data : table) (e : entry) : result table :=
  ' (bracket, wc, standard_b) <- entry_key e ;;
  match dict_get bracket data with
  | None => Err KeyError
  | Some weights =>
      match dict_get wc weights with
      | Some lf =>
          Ok (dict_set bracket
                (dict_set wc {| a := a lf; b := standard_b |} weights) data)
      | None =>
          Ok (dict_set bracket
                (dict_set wc {| a := 0; b := standard_b |} weights) data)
      end
  end.

Fixpoint foldM {S X} (f : S -> X -> result S) (l : list X) (s : S)
  : result S :=
  match l with
  | [] => Ok s
  | x :: l' => s' <- f s x ;; foldM f l' s'
  end.

(** The table after both loops. *)
Definition merge (a_data b_data : list entry) : result table :=
  data <- foldM process_a a_data empty_table ;;
  foldM process_b b_data data.

(** An item of [weights.items()] with its sort key,
    [weight_class_sort_key(x[0])]. *)
Definition sort_key_of_item (it : str * leaf) : result (sort_key * (str * leaf)) :=
  k <- weight_class_sort_key (fst it) ;; Ok (k, it).

(** [sorted(weights.items(), key=lambda x: weight_class_sort_key(x[0]))] *)
Definition sorted_items (weights : dict leaf)
  : result (list (str * leaf)) :=
  keyed <- mapM sort_key_of_item weights ;;
  Ok (map snd (stable_sort key_ltb keyed)).

Definition entry_line (it : str * leaf) : str :=
  L "        " ++ [dquote] ++ fst it ++ [dquote]
    ++ L ": { qualifyingStandards: { a: " ++ str_of_int (a (snd it))
    ++ L ", b: " ++ str_of_int (b (snd it)) ++ L " } }," ++ [newline].

Definition bracket_text (bracket : str) (weights : dict leaf) : result str :=
  items <- sorted_items weights ;;
  Ok (L "    " ++ bracket ++ L ": {" ++ [newline]
        ++ concat (map entry_line items)
        ++ L "    }," ++ [newline]).

Definition format_as_typescript (a_data b_data : list entry) : result str :=
  data <- merge a_data b_data ;;
  blocks <- mapM (fun kv => bracket_text (fst kv) (snd kv)) data ;;
  Ok (L "export const standards = {" ++ [newline]
        ++ concat blocks
        ++ L "};" ++ [newline]).

(** The run of the script from the two extracted texts to the text it
    prints and writes. *)
Definition pipeline (a_text b_text : str) : result str :=
  format_as_typescript (scrape_text a_text) (scrape_text b_text).

(** ** Notions the statements below are phrased in *)

(** [sub] occurs in [text] at offset [n]. *)
Definition occurs_at (sub text : str) (n : nat) : Prop :=
  exists pre post, text = pre ++ sub ++ post /\ length pre = n.

Definition first_occurrence (sub text : str) (n : nat) : Prop :=
  occurs_at sub text n /\ forall m, m < n -> ~ occurs_at sub text m.

Definition absent (sub text : str) : Prop :=
  forall n, ~ occurs_at sub text n.

(** [" ".join(words)] *)
Fixpoint join_space (words : list str) : str :=
  match words with
  | [] => []
  | [w] => w
  | w :: rest => w ++ L " " ++ join_space rest
  end.

(** The leaf stored under a bracket and a gendered weight class. *)
Definition lookup2 (bracket wc : str) (data : table) : option leaf :=
  match dict_get bracket data with
  | Some weights => dict_get wc weights
  | None => None
  end.

Definition key_eqb (k1 k2 : str * str) : bool :=
  str_eqb (fst k1) (fst k2) && str_eqb (snd k1) (snd k2).

(** The standard of the first, and of the last, row with key [k] in a
    list of rows given as (bracket, weight class, standard). *)
Fixpoint first_std (k : str * str) (rows : list (str * str * Z)) : option Z :=
  match rows with
  | [] => None
  | (k', x) :: rows' => if key_eqb k k' then Some x else first_std k rows'
  end.

Fixpoint last_std (k : str * str) (rows : list (str * str * Z)) : option Z :=
  match rows with
  | [] => None
  | (k', x) :: rows' =>
      match last_std k rows' with
      | Some y => Some y
      | None => if key_eqb k k' then Some x else None
      end
  end.

(** What the merged table should hold for a key, from the first A-row and
    the last B-row with that key. *)
Definition merged_leaf (fa lb : option Z) : option leaf :=
  match fa, lb with
  | Some x, Some y => Some {| a := x; b := y |}
  | Some x, None => Some {| a := x; b := 0 |}
  | None, Some y => Some {| a := 0; b := y |}
  | None, None => None
  end.

Definition valid_bracket (bracket : str) : Prop :=
  bracket = L "Youth" \/ bracket = L "Junior" \/ bracket = L "Senior".

(** The order the keys are to be emitted in: by gender, then by weight,
    an open class counting as infinite. *)
Definition float_le (x y : pyfloat) : Prop :=
  float_ltb x y = true \/ x = y.

Definition key_le (k1 k2 : sort_key) : Prop :=
  str_ltb (fst k1) (fst k2) = true
  \/ (fst k1 = fst k2 /\ float_le (snd k1) (snd k2)).

(** The rows the loop appends for one group; [later] is
    [age_groups[i+1:]]. *)
Definition group_records (text group : str) (later : list str) : list entry :=
  match section_text text group later with
  | Some section => section_records group section
  | None => []
  end.

(** Every run of whitespace replaced by one space, read left to right;
    [prev] tells that the character before was whitespace. *)
Fixpoint collapse_aux (prev : bool) (s : str) : str :=
  match s with
  | [] => []
  | c :: s' =>
      if isspace c
      then if prev then collapse_aux true s'
           else " "%char :: collapse_aux true s'
      else c :: collapse_aux false s'
  end.

(** The text [g0 w1 g1 ... wn gn] made of the words [w] and the gaps [g]
    around them. *)
Definition weave (g0 : str) (pairs : list (str * str)) : str :=
  g0 ++ flat_map (fun p => fst p ++ snd p) pairs.

Definition blank (g : str) : Prop := Forall (fun c => isspace c = true) g.

Definition word (w : str) : Prop :=
  w <> [] /\ Forall (fun c => isspace c = false) w.

(** Words separated by non-empty blank gaps; only the gap after the last
    word may be empty. *)
Fixpoint well_spaced (pairs : list (str * str)) : Prop :=
  match pairs with
  | [] => True
  | (w, g) :: rest =>
      word w /\ blank g /\ (rest <> [] -> g <> []) /\ well_spaced rest
  end.

(** Every row's bracket is a key of the table. *)
Definition has_brackets (rows : list (str * str * Z)) (data : table) : Prop :=
  forall br wc x, In (br, wc, x) rows -> dict_get br data <> None.

(** Item [i] is to be emitted no later than item [j]: both have a sort
    key, and the keys are in order. *)
Definition item_le (i j : str * leaf) : Prop :=
  exists ki kj,
    weight_class_sort_key (fst i) = Ok ki
    /\ weight_class_sort_key (fst j) = Ok kj
    /\ key_le ki kj.

(** An order on keys, taken to items that carry their key in front. *)
Definition by_key {K A} (le : K -> K -> Prop) (i j : K * A) : Prop :=
  le (fst i) (fst j).

(** ** Inputs used in the examples *)

Definition boundary_text : str :=
  L "Senior Women: Class: 55kg Total: 100 Senior Men: Class: 60kg Total: 120".

Definition out_of_order_text : str :=
  L "Junior Women: Youth Women: Class: 60kg Total: 100 Youth Men: Class: 50kg Total: 90".

Definition swapped_text : str :=
  L "Senior Men: Class: 60kg Total: 120 Senior Women: Class: 55kg Total: 100".

Definition mismatch_text : str := L "Class: 60kg 65kg Total: 120 130 140".

Definition spaced_one : str :=
  ["a"; "009"; " "; "b"; "c"; "010"; "160"; "d"]%char.

Definition spaced_two : str :=
  [" "; "a"; "160"; "b"; "c"; " "; " "; "013"; "d"; "009"]%char.

Definition row (ag wc std : string) : entry :=
  {| age_group := L ag; weight_class := L wc; weight_standard := L std |}.

Definition a_table_example : list entry :=
  [row "Senior Men" "60kg" "120"; row "Senior Women" "55kg" "100"].

Definition b_table_example : list entry :=
  [row "Senior Men" "60kg" "110"; row "Junior Men" "67kg" "90"].

Definition a_table_twice : list entry :=
  [row "Senior Men" "60kg" "120"; row "Senior Men" "60kg" "125"].

Definition b_table_twice : list entry :=
  [row "Senior Men" "60kg" "110"; row "Senior Men" "60kg" "115"].

Definition lf0 : leaf := {| a := 0; b := 0 |}.

Definition female_classes : dict leaf :=
  [(L "Female 55kg", lf0); (L "Female +65kg", lf0); (L "Female 50kg", lf0)].

(** ** Further notions *)

(** The text the script writes when both tables are empty. *)
Definition empty_output : str :=
  L "export const standards = {" ++ [newline]
    ++ L "    Youth: {" ++ [newline] ++ L "    }," ++ [newline]
    ++ L "    Junior: {" ++ [newline] ++ L "    }," ++ [newline]
    ++ L "    Senior: {" ++ [newline] ++ L "    }," ++ [newline]
    ++ L "};" ++ [newline].

(** The offsets of the labels that occur in the text, in list order. *)
Definition found_offsets (text : str) (groups : list str) : list nat :=
  flat_map (fun g => match find (label g) text with
                     | Some p => [p]
                     | None => []
                     end) groups.

(** The sections the loop cuts, in the order it cuts them. *)
Fixpoint sections_of (text : str) (groups : list str) : list str :=
  match groups with
  | [] => []
  | g :: later =>
      match section_text text g later with
      | Some section => section :: sections_of text later
      | None => sections_of text later
      end
  end.

(** What the merger keeps true of [age_group_data]: its keys are the
    three brackets, in their order, and no bracket lists a weight class
    twice. *)
Definition table_inv (data : table) : Prop :=
  map fst data = map fst empty_table
  /\ Forall (fun kv => NoDup (map fst (snd kv))) data.

(** Equality of floats as values of the model (a NaN equal to itself),
    and of sort keys. *)
Definition pyfloat_same (x y : pyfloat) : bool :=
  match x, y with
  | FNan, FNan => true
  | FInf s, FInf t => Bool.eqb s t
  | FFin j, FFin k => (j =? k)%Z
  | _, _ => false
  end.

Definition sort_key_same (k1 k2 : sort_key) : bool :=
  str_eqb (fst k1) (fst k2) && pyfloat_same (snd k1) (snd k2).

(** The item's sort key is [k]. *)
Definition has_key (k : sort_key) (it : str * leaf) : bool :=
  match weight_class_sort_key (fst it) with
  | Ok k' => sort_key_same k k'
  | Err _ => false
  end.

Definition open_classes : dict leaf :=
  [(L "Male +109kg", lf0); (L "Male 81kg", lf0); (L "Male +87kg", lf0)].

Definition upper_kg_text : str := L "Senior Men: Class: 60kg Total: 120KG".

(** The order in which the weight classes of one bracket are first met
    in a list of rows. *)
Definition add_new (keys : list str) (wc : str) : list str :=
  if existsb (str_eqb wc) keys then keys else keys ++ [wc].

Definition first_seen (wcs : list str) : list str :=
  fold_left add_new wcs [].

Definition bracket_classes (br : str) (rows : list (str * str * Z))
  : list str :=
  map (fun r => snd (fst r))
      (filter (fun r => str_eqb br (fst (fst r))) rows).

(** The bracket's dict in the merged table, when there is one. *)
Definition lookup_bracket (br : str) (A B : list entry) : option (dict leaf) :=
  match merge A B with
  | Ok data => dict_get br data
  | Err _ => None
  end.

(** * Properties *)

(** ** Strings *)

Lemma str_eqb_eq (x y : str) : str_eqb x y = true <-> x = y.
Proof.
  revert y; induction x as [|c x IH]; intros [|d y]; simpl; split;
    try congruence; try reflexivity.
  - intros H. apply andb_true_iff in H as [H1 H2].
    apply Ascii.eqb_eq in H1. apply IH in H2. congruence.
  - intros H. injection H as -> ->.
    rewrite Ascii.eqb_refl. simpl. now apply IH.
Qed.

Lemma str_eqb_refl (x : str) : str_eqb x x = true.
Proof. now apply str_eqb_eq. Qed.

Lemma str_eqb_neq (x y : str) : str_eqb x y = false <-> x <> y.
Proof.
  split.
  - intros H E. apply str_eqb_eq in E. congruence.
  - intros H. destruct (str_eqb x y) eqn:E; [|reflexivity].
    apply str_eqb_eq in E. contradiction.
Qed.

Lemma startswith_spec (p s : str) :
  startswith p s = true <-> exists post, s = p ++ post.
Proof.
  revert s; induction p as [|c p IH]; intros s; simpl.
  - split; [intros _; now exists s | reflexivity].
  - destruct s as [|d s].
    + split; [discriminate | intros [post H]; discriminate].
    + rewrite andb_true_iff, Ascii.eqb_eq, IH. split.
      * intros [-> [post ->]]. now exists post.
      * intros [post H]. injection H as -> ->. split; [reflexivity | now exists post].
Qed.

Lemma occurs_at_0 (sub s : str) :
  occurs_at sub s 0 <-> startswith sub s = true.
Proof.
  rewrite startswith_spec. unfold occurs_at. split.
  - intros (pre & post & -> & Hl). destruct pre; [|discriminate].
    now exists post.
  - intros [post ->]. now exists [], post.
Qed.

Lemma occurs_at_S (sub : str) (c : ascii) (s : str) (n : nat) :
  occurs_at sub (c :: s) (S n) <-> occurs_at sub s n.
Proof.
  unfold occurs_at. split.
  - intros (pre & post & E & Hl). destruct pre as [|d pre]; [discriminate|].
    simpl in E, Hl. injection E as -> ->. exists pre, post. split; [reflexivity | lia].
  - intros (pre & post & -> & Hl). exists (c :: pre), post.
    split; [reflexivity | simpl; lia].
Qed.

Lemma occurs_at_nil (sub : str) (n : nat) : occurs_at sub [] (S n) -> False.
Proof.
  intros (pre & post & E & Hl). destruct pre; discriminate.
Qed.

Lemma occurs_at_bound (sub text : str) (n : nat) :
  occurs_at sub text n -> n + length sub <= length text.
Proof.
  intros (pre & post & -> & <-). rewrite !length_app. lia.
Qed.

Lemma find_from_some (sub s : str) (pos n : nat) :
  find_from sub s pos = Some n ->
  exists m, n = pos + m /\ first_occurrence sub s m.
Proof.
  revert pos; induction s as [|c s IH]; intros pos; simpl.
  - destruct (startswith sub []) eqn:E; [|discriminate].
    intros [= <-]. exists 0. split; [lia|]. split.
    + now apply occurs_at_0.
    + intros m Hm. lia.
  - destruct (startswith sub (c :: s)) eqn:E.
    + intros [= <-]. exists 0. split; [lia|]. split.
      * now apply occurs_at_0.
      * intros m Hm. lia.
    + intros H. apply IH in H as (m & -> & Ho & Hmin).
      exists (S m). split; [lia|]. split.
      * now apply occurs_at_S.
      * intros [|k] Hk.
        -- rewrite occurs_at_0. congruence.
        -- rewrite occurs_at_S. apply Hmin. lia.
Qed.

Lemma find_from_none (sub s : str) (pos : nat) :
  find_from sub s pos = None -> absent sub s.
Proof.
  revert pos; induction s as [|c s IH]; intros pos; simpl.
  - destruct (startswith sub []) eqn:E; [discriminate|].
    intros _ [|n] Ho.
    + apply occurs_at_0 in Ho. congruence.
    + now apply occurs_at_nil in Ho.
  - destruct (startswith sub (c :: s)) eqn:E; [discriminate|].
    intros H [|n] Ho.
    + apply occurs_at_0 in Ho. congruence.
    + apply occurs_at_S in Ho. exact (IH _ H n Ho).
Qed.

Lemma first_occurrence_unique (sub s : str) (n m : nat) :
  first_occurrence sub s n -> first_occurrence sub s m -> n = m.
Proof.
  intros [Hn Hn'] [Hm Hm'].
  destruct (Nat.lt_trichotomy n m) as [H|[H|H]]; [|assumption|].
  - exfalso. exact (Hm' n H Hn).
  - exfalso. exact (Hn' m H Hm).
Qed.

(** [find] returns the first occurrence, and -1 exactly when there is
    none. *)
Lemma find_some_iff (sub s : str) (n : nat) :
  find sub s = Some n <-> first_occurrence sub s n.
Proof.
  unfold find. split.
  - intros H. apply find_from_some in H as (m & -> & H). exact H.
  - intros H. destruct (find_from sub s 0) as [k|] eqn:E.
    + apply find_from_some in E as (m & -> & E).
      f_equal. simpl. eapply first_occurrence_unique; eassumption.
    + apply find_from_none in E. destruct H as [H _]. now apply E in H.
Qed.

Lemma find_none_iff (sub s : str) : find sub s = None <-> absent sub s.
Proof.
  unfold find. split.
  - apply find_from_none.
  - intros H. destruct (find_from sub s 0) as [k|] eqn:E; [|reflexivity].
    apply find_from_some in E as (m & -> & [E _]). now apply H in E.
Qed.

(** For offsets in order and inside the text, [s[a:b]] is the piece of
    the text between them. *)
Lemma slice_substring (s : str) (a b : nat) :
  a <= b -> b <= length s ->
  exists pre post,
    s = pre ++ slice s a b ++ post /\ length pre = a
    /\ length (pre ++ slice s a b) = b.
Proof.
  intros Hab Hb. exists (firstn a s), (skipn b s). unfold slice.
  assert (E : skipn b s = skipn (b - a) (skipn a s)).
  { rewrite skipn_skipn. f_equal. lia. }
  rewrite E, firstn_skipn, firstn_skipn.
  split; [reflexivity|]. rewrite length_app, !length_firstn, length_skipn. lia.
Qed.

Lemma slice_empty (s : str) (a b : nat) : b <= a -> slice s a b = [].
Proof.
  intros H. unfold slice. replace (b - a) with 0 by lia. reflexivity.
Qed.

(** ** Sections *)

(** The inner loop stops at the first later label, in list order, that
    the text contains. *)
Lemma next_section_start_spec (text : str) (later : list str) :
  (exists j h,
      nth_error later j = Some h
      /\ first_occurrence (label h) text (next_section_start text later)
      /\ forall k h', k < j -> nth_error later k = Some h' ->
                      absent (label h') text)
  \/ (next_section_start text later = length text
      /\ forall k h', nth_error later k = Some h' -> absent (label h') text).
Proof.
  induction later as [|g later IH]; simpl.
  - right. split; [reflexivity|]. intros [|k] h'; discriminate.
  - destruct (find (label g) text) as [p|] eqn:E.
    + left. exists 0, g. split; [reflexivity|]. split.
      * now apply find_some_iff.
      * intros k h' Hk. lia.
    + apply find_none_iff in E. destruct IH as [(j & h & Hj & Hf & Hab)|[Hl Hab]].
      * left. exists (S j), h. split; [exact Hj|]. split; [exact Hf|].
        intros [|k] h' Hk Hn; simpl in Hn.
        -- injection Hn as <-. exact E.
        -- apply (Hab k); [lia | exact Hn].
      * right. split; [exact Hl|].
        intros [|k] h' Hn; simpl in Hn.
        -- injection Hn as <-. exact E.
        -- now apply (Hab k).
Qed.

Lemma next_section_start_bound (text : str) (later : list str) :
  next_section_start text later <= length text.
Proof.
  destruct (next_section_start_spec text later)
    as [(j & h & _ & [Ho _] & _)|[-> _]]; [|lia].
  apply occurs_at_bound in Ho. lia.
Qed.

(** The loop appends, group by group, the rows of the section of each
    label it finds. *)
Lemma scrape_loop_app (text : str) (groups : list str) (data : list entry) :
  scrape_loop text groups data = data ++ scrape_loop text groups [].
Proof.
  revert data; induction groups as [|g later IH]; intros data; simpl.
  - now rewrite app_nil_r.
  - destruct (section_text text g later) as [sec|].
    + rewrite IH. rewrite (IH (section_records g sec)).
      now rewrite app_assoc.
    + apply IH.
Qed.

Lemma scrape_loop_cons (text g : str) (later : list str) (data : list entry) :
  scrape_loop text (g :: later) data
  = scrape_loop text later (data ++ group_records text g later).
Proof.
  simpl. unfold group_records.
  destruct (section_text text g later); [reflexivity|].
  now rewrite app_nil_r.
Qed.

Lemma next_section_start_at (text : str) (later : list str) (j : nat)
      (h : str) (en : nat) :
  nth_error later j = Some h ->
  first_occurrence (label h) text en ->
  (forall k h', k < j -> nth_error later k = Some h' ->
                absent (label h') text) ->
  next_section_start text later = en.
Proof.
  revert j; induction later as [|g later IH]; intros j Hj Hf Hab.
  - destruct j; discriminate.
  - simpl. destruct j as [|j]; simpl in Hj.
    + injection Hj as ->. apply find_some_iff in Hf. now rewrite Hf.
    + assert (E : find (label g) text = None).
      { apply find_none_iff. apply (Hab 0); [lia | reflexivity]. }
      rewrite E. apply (IH j Hj Hf).
      intros k h' Hk Hn. apply (Hab (S k)); [lia | exact Hn].
Qed.

(** [extract_section_data] on the empty section. *)
Lemma extract_section_data_nil : extract_section_data [] = ([], []).
Proof. reflexivity. Qed.

Lemma section_records_nil (group : str) : section_records group [] = [].
Proof. reflexivity. Qed.

(** C2.  For the label at index [i] of the six: when the label does not
    occur in the text it has no section; when it does, its section is
    [text[st:en]] with [st] the first occurrence of the label followed by a
    colon and [en] the first occurrence of the first later-listed label
    that occurs at all (later labels that do not occur are passed over), or
    the length of the text when no later label occurs; and for [st <= en]
    that slice is the piece of the text from offset [st] up to offset
    [en]. *)
Theorem section_boundaries (text : str) (i : nat) (g : str) :
  nth_error age_groups i = Some g ->
  let later := skipn (S i) age_groups in
  (absent (label g) text -> section_text text g later = None)
  /\ (forall st, first_occurrence (label g) text st ->
        exists en,
          section_text text g later = Some (slice text st en)
          /\ ((exists j h,
                  i < j /\ nth_error age_groups j = Some h
                  /\ first_occurrence (label h) text en
                  /\ forall k h', i < k < j ->
                                  nth_error age_groups k = Some h' ->
                                  absent (label h') text)
              \/ (en = length text
                  /\ forall k h', i < k ->
                                  nth_error age_groups k = Some h' ->
                                  absent (label h') text))
          /\ (st <= en ->
              exists pre post,
                text = pre ++ slice text st en ++ post
                /\ length pre = st
                /\ length (pre ++ slice text st en) = en)).
Proof.
  intros Hg later. split.
  - intros Ha. unfold section_text.
    apply find_none_iff in Ha. now rewrite Ha.
  - intros st Hst. exists (next_section_start text later).
    unfold section_text. apply find_some_iff in Hst. rewrite Hst.
    split; [reflexivity|]. split.
    + destruct (next_section_start_spec text later)
        as [(j & h & Hj & Hf & Hab)|[Hl Hab]].
      * left. exists (S i + j), h. unfold later in Hj.
        rewrite nth_error_skipn in Hj.
        split; [lia|]. split; [exact Hj|]. split; [exact Hf|].
        intros k h' Hk Hn. apply (Hab (k - S i)); [lia|].
        unfold later. rewrite nth_error_skipn.
        replace (S i + (k - S i)) with k by lia. exact Hn.
      * right. split; [exact Hl|].
        intros k h' Hk Hn. apply (Hab (k - S i)).
        unfold later. rewrite nth_error_skipn.
        replace (S i + (k - S i)) with k by lia. exact Hn.
    + intros Hle. apply slice_substring; [exact Hle|].
      apply next_section_start_bound.
Qed.

Lemma section_boundaries_witness :
  nth_error age_groups 4 = Some (L "Senior Women")
  /\ first_occurrence (label (L "Senior Women")) boundary_text 0
  /\ exists en,
       section_text boundary_text (L "Senior Women") (skipn 5 age_groups)
       = Some (slice boundary_text 0 en).
Proof.
  assert (H0 : first_occurrence (label (L "Senior Women")) boundary_text 0).
  { apply find_some_iff. reflexivity. }
  split; [reflexivity|]. split; [exact H0|].
  destruct (proj2 (@section_boundaries boundary_text 4 (L "Senior Women")
                     eq_refl) 0 H0) as (en & E & _).
  exists en. exact E.
Defined.

(** C10, as stated, fails: in [out_of_order_text] the later-listed label
    "Junior Women:" comes before "Youth Women:", yet the section of
    "Youth Women" runs up to "Youth Men:", is not empty and gives a row. *)
Lemma later_label_first_counterexample :
  ~ (forall (text : str) (i j : nat) (g h : str) (st p : nat),
        nth_error age_groups i = Some g ->
        nth_error age_groups j = Some h ->
        i < j ->
        first_occurrence (label g) text st ->
        first_occurrence (label h) text p ->
        p < st ->
        section_text text g (skipn (S i) age_groups) = Some []
        /\ group_records text g (skipn (S i) age_groups) = []).
Proof.
  intros H.
  destruct (H out_of_order_text 0 2 (L "Youth Women") (L "Junior Women") 14 0)
    as [H1 _]; try reflexivity; try lia.
  - apply find_some_iff. reflexivity.
  - apply find_some_iff. reflexivity.
  - vm_compute in H1. discriminate.
Qed.

(** C10, amended.  The end of a section is the offset of the first
    later-listed label that occurs in the text, searched from the start of
    the text: when that label occurs before the current label, the current
    label's section is the empty string and the group gives no rows. *)
Theorem section_empty_when_next_found_precedes
        (text : str) (i j : nat) (g h : str) (st en : nat) :
  nth_error age_groups i = Some g ->
  first_occurrence (label g) text st ->
  i < j ->
  nth_error age_groups j = Some h ->
  first_occurrence (label h) text en ->
  (forall k h', i < k < j -> nth_error age_groups k = Some h' ->
                absent (label h') text) ->
  en < st ->
  section_text text g (skipn (S i) age_groups) = Some []
  /\ group_records text g (skipn (S i) age_groups) = [].
Proof.
  intros Hg Hst Hij Hh Hen Hab Hlt.
  assert (E : section_text text g (skipn (S i) age_groups) = Some []).
  { unfold section_text. apply find_some_iff in Hst. rewrite Hst.
    rewrite (@next_section_start_at text _ (j - S i) h en).
    - rewrite slice_empty; [reflexivity | lia].
    - rewrite nth_error_skipn. replace (S i + (j - S i)) with j by lia.
      exact Hh.
    - exact Hen.
    - intros k h' Hk Hn. rewrite nth_error_skipn in Hn.
      apply (Hab (S i + k)); [lia | exact Hn]. }
  split; [exact E|].
  unfold group_records. rewrite E. apply section_records_nil.
Qed.

Lemma section_empty_when_next_found_precedes_witness :
  section_text swapped_text (L "Senior Women") (skipn 5 age_groups) = Some []
  /\ group_records swapped_text (L "Senior Women") (skipn 5 age_groups) = [].
Proof.
  apply (@section_empty_when_next_found_precedes
           swapped_text 4 5 (L "Senior Women") (L "Senior Men") 35 0).
  - reflexivity.
  - apply find_some_iff. reflexivity.
  - lia.
  - reflexivity.
  - apply find_some_iff. reflexivity.
  - intros k h' Hk. lia.
  - lia.
Defined.

(** ** Field extraction *)

(** C5.  On the section text of the claim the weight classes keep their
    [kg] and the totals lose it. *)
Theorem extract_section_data_example :
  extract_section_data
    (L "Senior Men: Weight class: 60kg 65kg Total: 120 130kg")
  = ([L "60kg"; L "65kg"], [L "120"; L "130"]).
Proof. vm_compute. reflexivity. Qed.

(** C1, as stated, fails: on [mismatch_text] both patterns match, two
    weight classes and three totals come out, and [extract_section_data]
    returns these lists, not two empty ones. *)
Lemma mismatch_extraction_counterexample :
  ~ (forall (section : str) (w t : mobj),
        re_search true weight_pattern section = Some w ->
        re_search true total_pattern section = Some t ->
        length (weight_classes_of w) <> length (totals_of t) ->
        extract_section_data section = ([], [])).
Proof.
  intros H.
  destruct (re_search true weight_pattern mismatch_text) as [w|] eqn:Ew;
    [|vm_compute in Ew; discriminate].
  destruct (re_search true total_pattern mismatch_text) as [t|] eqn:Et;
    [|vm_compute in Et; discriminate].
  specialize (H mismatch_text w t Ew Et).
  vm_compute in Ew. injection Ew as <-.
  vm_compute in Et. injection Et as <-.
  vm_compute in H. specialize (H ltac:(discriminate)). discriminate.
Qed.

(** C1, amended.  When both patterns match and the two lists differ in
    length, [extract_section_data] returns the two lists as they are (so
    not two empty lists), and the section adds no row: the loop goes on
    with [data] unchanged. *)
Theorem mismatch_section_dropped (group section : str) (w t : mobj) :
  re_search true weight_pattern section = Some w ->
  re_search true total_pattern section = Some t ->
  length (weight_classes_of w) <> length (totals_of t) ->
  extract_section_data section = (weight_classes_of w, totals_of t)
  /\ extract_section_data section <> ([], [])
  /\ section_records group section = []
  /\ forall text later data,
       section_text text group later = Some section ->
       scrape_loop text (group :: later) data = scrape_loop text later data.
Proof.
  intros Hw Ht Hlen.
  assert (E : extract_section_data section
              = (weight_classes_of w, totals_of t)).
  { unfold extract_section_data. now rewrite Hw, Ht. }
  assert (R : section_records group section = []).
  { unfold section_records. rewrite E.
    apply Nat.eqb_neq in Hlen. now rewrite Hlen. }
  split; [exact E|]. split.
  - rewrite E. intros [= H1 H2]. rewrite H1, H2 in Hlen. now apply Hlen.
  - split; [exact R|].
    intros text later data Hs. simpl. rewrite Hs, R. now rewrite app_nil_r.
Qed.

Lemma mismatch_section_dropped_witness :
  extract_section_data mismatch_text
  = ([L "60kg"; L "65kg"], [L "120"; L "130"; L "140"])
  /\ section_records (L "Senior Men") mismatch_text = [].
Proof.
  destruct (@mismatch_section_dropped (L "Senior Men") mismatch_text
              {| m_rest := L " Total: 120 130 140";
                 m_group1 := Some (L "60kg 65kg") |}
              {| m_rest := []; m_group1 := Some (L "120 130 140") |})
    as (E & _ & R & _).
  - vm_compute. reflexivity.
  - vm_compute. reflexivity.
  - vm_compute. discriminate.
  - split; [exact E | exact R].
Defined.

(** ** Normalisation *)

Lemma lstrip_length (s : str) : length (lstrip s) <= length s.
Proof.
  induction s as [|c s IH]; simpl; [lia|].
  destruct (isspace c); simpl; lia.
Qed.

(** [\s*] followed by nothing else reads the whole run of whitespace. *)
Lemma rmatch_star_space (s : str) (cap : option str) :
  rmatch false (Star Space) s cap
         (fun s' cap' => Some {| m_rest := s'; m_group1 := cap' |})
  = Some {| m_rest := lstrip s; m_group1 := cap |}.
Proof.
  induction s as [|c s IH]; [reflexivity|].
  cbn - [Nat.ltb]. unfold one. destruct (isspace c) eqn:E.
  - replace (length s <? S (length s)) with true
      by (symmetry; apply Nat.ltb_lt; lia).
    change ((fix iter (fuel : nat) (s0 : str) (cap0 : option str) {struct fuel} :
               option mobj := _) (length s) s cap)
      with (rmatch false (Star Space) s cap
              (fun s' cap' => Some {| m_rest := s'; m_group1 := cap' |})).
    now rewrite IH.
  - reflexivity.
Qed.

Lemma match_here_ws (s : str) :
  match_here false ws_pattern s
  = match s with
    | c :: s' => if isspace c
                 then Some {| m_rest := lstrip s'; m_group1 := None |}
                 else None
    | [] => None
    end.
Proof.
  destruct s as [|c s]; [reflexivity|].
  unfold match_here, ws_pattern, Plus.
  change (rmatch false (Seq Space (Star Space)) (c :: s) None
            (fun s' cap => Some {| m_rest := s'; m_group1 := cap |}))
    with (if isspace c
          then rmatch false (Star Space) s None
                 (fun s' cap => Some {| m_rest := s'; m_group1 := cap |})
          else None).
  now rewrite rmatch_star_space.
Qed.

Lemma collapse_true_lstrip (s : str) :
  collapse_aux true s = collapse_aux false (lstrip s).
Proof.
  induction s as [|c s IH]; [reflexivity|].
  simpl. destruct (isspace c) eqn:E; [exact IH|].
  simpl. now rewrite E.
Qed.

(** [re.sub(r'\s+', ' ', s)] replaces every run of whitespace by one
    space. *)
Lemma re_sub_ws_aux (fuel : nat) (s : str) :
  length s < fuel ->
  re_sub_aux false fuel ws_pattern (L " ") s = collapse_aux false s.
Proof.
  revert s; induction fuel as [|fuel IH]; intros s Hf; [lia|].
  cbn [re_sub_aux]. rewrite match_here_ws.
  destruct s as [|c s]; [reflexivity|].
  simpl in Hf. cbn [collapse_aux]. destruct (isspace c) eqn:E.
  - cbn [m_rest].
    replace (length (lstrip s) <? length (c :: s)) with true.
    + rewrite IH.
      * now rewrite collapse_true_lstrip.
      * pose proof (lstrip_length s). lia.
    + symmetry. apply Nat.ltb_lt. pose proof (lstrip_length s). simpl. lia.
  - rewrite IH; [reflexivity | lia].
Qed.

Lemma re_sub_ws (s : str) :
  re_sub false ws_pattern (L " ") s = collapse_aux false s.
Proof. unfold re_sub. apply re_sub_ws_aux. lia. Qed.

Lemma collapse_space_only (prev : bool) (s : str) (c : ascii) :
  In c (collapse_aux prev s) -> isspace c = true -> c = " "%char.
Proof.
  revert prev; induction s as [|d s IH]; intros prev; simpl; [tauto|].
  destruct (isspace d) eqn:E.
  - destruct prev; simpl.
    + apply IH.
    + intros [<-|H] Hc; [reflexivity | now apply (IH true)].
  - simpl. intros [<-|H] Hc; [congruence | now apply (IH false)].
Qed.

Lemma replace_char_absent (c : ascii) (new s : str) :
  ~ In c s -> replace [c] new s = s.
Proof.
  unfold replace. induction s as [|d s IH]; intros H; [reflexivity|].
  cbn [replace_aux startswith].
  destruct (Ascii.eqb c d) eqn:E.
  - apply Ascii.eqb_eq in E. subst d. exfalso. apply H. now left.
  - simpl. rewrite IH; [reflexivity|]. intros Hin. apply H. now right.
Qed.

Lemma lstrip_app (x y : str) :
  lstrip (x ++ y) = match lstrip x with
                    | [] => lstrip y
                    | _ => lstrip x ++ y
                    end.
Proof.
  induction x as [|c x IH]; simpl.
  - now destruct (lstrip y).
  - destruct (isspace c); [exact IH | reflexivity].
Qed.

Lemma rstrip_app (x y : str) :
  rstrip (x ++ y) = match rstrip y with
                    | [] => rstrip x
                    | _ => x ++ rstrip y
                    end.
Proof.
  unfold rstrip. rewrite rev_app_distr, lstrip_app.
  destruct (lstrip (rev y)) as [|c l] eqn:E; [reflexivity|].
  rewrite rev_app_distr, rev_involutive.
  destruct (rev (c :: l)) eqn:E'; [|reflexivity].
  apply (f_equal (@length _)) in E'. rewrite length_rev in E'. discriminate.
Qed.

Lemma rstrip_cons (c : ascii) (y : str) :
  rstrip (c :: y) = match rstrip y with
                    | [] => if isspace c then [] else [c]
                    | _ => c :: rstrip y
                    end.
Proof.
  change (c :: y) with ([c] ++ y). rewrite rstrip_app.
  destruct (rstrip y); [|reflexivity].
  unfold rstrip. simpl. now destruct (isspace c).
Qed.

Lemma rstrip_rev_word (c : ascii) (cur : str) :
  isspace c = false -> rstrip (rev (c :: cur)) = rev (c :: cur).
Proof.
  intros H. unfold rstrip. rewrite rev_involutive. simpl. now rewrite H.
Qed.

Lemma split_ws_aux_nonempty (cur s : str) :
  Forall (fun w => w <> []) (split_ws_aux cur s).
Proof.
  assert (R : forall c (l : str), rev (c :: l) <> []).
  { intros c l H. apply (f_equal (@length _)) in H.
    rewrite length_rev in H. discriminate. }
  revert cur; induction s as [|c s IH]; intros cur; simpl.
  - destruct cur; constructor; [apply R | constructor].
  - destruct (isspace c); [|apply IH].
    destruct cur; [apply IH|]. constructor; [apply R | apply IH].
Qed.

Lemma join_space_nil (ws : list str) :
  Forall (fun w => w <> []) ws -> join_space ws = [] -> ws = [].
Proof.
  intros H E. destruct ws as [|w ws]; [reflexivity|].
  inversion H as [|? ? Hw Hws]; subst.
  destruct ws; simpl in E.
  - contradiction.
  - destruct w; [contradiction | discriminate].
Qed.

Lemma join_space_cons (w : str) (ws : list str) :
  ws <> [] -> join_space (w :: ws) = w ++ " "%char :: join_space ws.
Proof. destruct ws; [contradiction | reflexivity]. Qed.

(** Dropping the trailing whitespace of the collapsed text leaves the
    words joined by single spaces; [cur] is a word being read. *)
Lemma rstrip_collapse (s : str) :
  rstrip (collapse_aux true s) = join_space (split_ws_aux [] s)
  /\ forall c cur,
       isspace c = false ->
       rstrip (rev (c :: cur) ++ collapse_aux false s)
       = join_space (split_ws_aux (c :: cur) s).
Proof.
  induction s as [|d s [IHa IHb]].
  - split; [reflexivity|]. intros c cur Hc.
    rewrite app_nil_r. now apply rstrip_rev_word.
  - split.
    + simpl. destruct (isspace d) eqn:E; [exact IHa|].
      rewrite <- (IHb d [] E). reflexivity.
    + intros c cur Hc. cbn [collapse_aux split_ws_aux].
      destruct (isspace d) eqn:E.
      * rewrite rstrip_app, rstrip_cons, IHa.
        pose proof (split_ws_aux_nonempty [] s) as Hne.
        destruct (join_space (split_ws_aux [] s)) as [|e l] eqn:J.
        -- apply join_space_nil in J; [|exact Hne]. rewrite J.
           change (isspace " ") with true. cbv iota.
           now apply rstrip_rev_word.
        -- rewrite join_space_cons; [now rewrite J|].
           intros Hn. rewrite Hn in J. discriminate.
      * rewrite <- (IHb d (c :: cur) E).
        change (rev (d :: c :: cur)) with (rev (c :: cur) ++ [d]).
        now rewrite <- app_assoc.
Qed.

Lemma lstrip_collapse_true (s : str) :
  lstrip (collapse_aux true s) = collapse_aux true s.
Proof.
  induction s as [|c s IH]; [reflexivity|].
  simpl. destruct (isspace c) eqn:E; [exact IH|].
  simpl. now rewrite E.
Qed.

Lemma lstrip_collapse (s : str) :
  lstrip (collapse_aux false s) = collapse_aux true s.
Proof.
  destruct s as [|c s]; [reflexivity|].
  cbn [collapse_aux]. destruct (isspace c) eqn:E.
  - cbn [lstrip]. change (isspace " ") with true. cbv iota.
    apply lstrip_collapse_true.
  - cbn [lstrip]. now rewrite E.
Qed.

(** [clean_text] returns the words of its argument joined by single
    spaces. *)
Lemma clean_text_join (s : str) : clean_text s = join_space (split_ws s).
Proof.
  unfold clean_text. rewrite re_sub_ws.
  rewrite replace_char_absent.
  - unfold strip. rewrite lstrip_collapse. apply rstrip_collapse.
  - intros H. apply collapse_space_only in H; [discriminate | reflexivity].
Qed.

Lemma split_ws_aux_blank (g s : str) :
  blank g -> split_ws_aux [] (g ++ s) = split_ws_aux [] s.
Proof.
  induction 1 as [|c g Hc _ IH]; [reflexivity|].
  simpl. now rewrite Hc.
Qed.

Lemma split_ws_aux_gap (c : ascii) (cur g s : str) :
  blank g -> g <> [] ->
  split_ws_aux (c :: cur) (g ++ s) = rev (c :: cur) :: split_ws_aux [] s.
Proof.
  intros Hg Hne. destruct Hg as [|d g Hd Hg]; [contradiction|].
  cbn [app split_ws_aux]. rewrite Hd. f_equal.
  now apply split_ws_aux_blank.
Qed.

Lemma split_ws_aux_word (cur w s : str) :
  Forall (fun c => isspace c = false) w ->
  split_ws_aux cur (w ++ s) = split_ws_aux (rev w ++ cur) s.
Proof.
  intros H. revert cur. induction H as [|c w Hc _ IH]; intros cur;
    [reflexivity|].
  cbn [app split_ws_aux]. rewrite Hc, IH. simpl. now rewrite <- app_assoc.
Qed.

(** The words of a woven text are the words it was woven from, whatever
    the gaps. *)
Lemma split_ws_weave (g0 : str) (pairs : list (str * str)) :
  blank g0 -> well_spaced pairs ->
  split_ws (weave g0 pairs) = map fst pairs.
Proof.
  intros Hg0 Hp. unfold split_ws, weave. rewrite split_ws_aux_blank by exact Hg0.
  clear g0 Hg0. induction pairs as [|[w g] rest IH]; [reflexivity|].
  destruct Hp as ([Hne Hw] & Hg & Hlast & Hrest).
  cbn [flat_map fst snd map]. rewrite <- app_assoc.
  rewrite split_ws_aux_word by exact Hw. rewrite app_nil_r.
  destruct (rev w) as [|c cur] eqn:E.
  { apply (f_equal (@length _)) in E. rewrite length_rev in E.
    destruct w; [contradiction | discriminate]. }
  destruct g as [|d g].
  - destruct rest as [|p rest]; [|exfalso; now apply Hlast].
    cbn [app flat_map split_ws_aux]. rewrite <- E. now rewrite rev_involutive.
  - rewrite split_ws_aux_gap; [|exact Hg | discriminate].
    rewrite <- E, rev_involutive. f_equal. now apply IH.
Qed.

(** C6.  Two texts with the same runs of non-whitespace characters, in
    the same order, are normalised to the same string, whatever
    whitespace stands around and between the runs; and that string is the
    runs joined by single ordinary spaces, with nothing before the first
    run or after the last. *)
Theorem clean_text_whitespace_invariant (s1 s2 : str) :
  split_ws s1 = split_ws s2 ->
  clean_text s1 = clean_text s2
  /\ clean_text s1 = join_space (split_ws s1).
Proof.
  intros H. rewrite !clean_text_join. now rewrite H.
Qed.

Lemma clean_text_whitespace_invariant_witness :
  clean_text spaced_one = clean_text spaced_two
  /\ clean_text spaced_one = L "a bc d".
Proof.
  apply (@clean_text_whitespace_invariant spaced_one spaced_two).
  vm_compute. reflexivity.
Defined.

(** ** Merging *)

Lemma key_eqb_eq (k1 k2 : str * str) : key_eqb k1 k2 = true <-> k1 = k2.
Proof.
  destruct k1 as [x1 y1], k2 as [x2 y2]. unfold key_eqb. simpl.
  rewrite andb_true_iff, !str_eqb_eq. split.
  - now intros [-> ->].
  - now intros [= -> ->].
Qed.

Lemma dict_get_set_same {V} (k : str) (v : V) (d : dict V) :
  dict_get k (dict_set k v d) = Some v.
Proof.
  induction d as [|[k' v'] d IH]; simpl.
  - now rewrite str_eqb_refl.
  - destruct (str_eqb k k') eqn:E; simpl; rewrite E; [reflexivity | exact IH].
Qed.

Lemma dict_get_set_other {V} (k k' : str) (v : V) (d : dict V) :
  k' <> k -> dict_get k' (dict_set k v d) = dict_get k' d.
Proof.
  intros Hne. induction d as [|[k0 v0] d IH]; simpl.
  - apply str_eqb_neq in Hne. now rewrite Hne.
  - destruct (str_eqb k k0) eqn:E; simpl.
    + apply str_eqb_eq in E. subst k0.
      apply str_eqb_neq in Hne. now rewrite Hne.
    + destruct (str_eqb k' k0); [reflexivity | exact IH].
Qed.

(** Storing a leaf under a bracket that is present changes the table at
    that key alone. *)
Lemma lookup2_store (data : table) (bracket wc : str) (weights : dict leaf)
      (lf : leaf) (br' wc' : str) :
  dict_get bracket data = Some weights ->
  lookup2 br' wc' (dict_set bracket (dict_set wc lf weights) data)
  = if key_eqb (br', wc') (bracket, wc) then Some lf
    else lookup2 br' wc' data.
Proof.
  intros Hb. unfold lookup2, key_eqb. cbn [fst snd].
  destruct (str_eqb br' bracket) eqn:Eb.
  - apply str_eqb_eq in Eb. subst br'. rewrite dict_get_set_same, Hb.
    destruct (str_eqb wc' wc) eqn:Ew; simpl.
    + apply str_eqb_eq in Ew. subst wc'. apply dict_get_set_same.
    + apply str_eqb_neq in Ew. now apply dict_get_set_other.
  - apply str_eqb_neq in Eb. simpl. now rewrite dict_get_set_other.
Qed.

Lemma brackets_store {V} (data : dict V) (bracket br : str) (w w' : V) :
  dict_get bracket data = Some w ->
  (dict_get br (dict_set bracket w' data) = None <-> dict_get br data = None).
Proof.
  intros Hb. destruct (str_eqb br bracket) eqn:E.
  - apply str_eqb_eq in E. subst br. rewrite dict_get_set_same, Hb.
    split; discriminate.
  - apply str_eqb_neq in E. now rewrite dict_get_set_other.
Qed.

Lemma mapM_cons_ok {A B} (f : A -> result B) (x : A) (l : list A)
      (ys : list B) :
  mapM f (x :: l) = Ok ys ->
  exists y ys', f x = Ok y /\ mapM f l = Ok ys' /\ ys = y :: ys'.
Proof.
  simpl. destruct (f x) as [y|]; [|discriminate]. simpl.
  destruct (mapM f l) as [ys'|]; [|discriminate]. simpl.
  intros [= <-]. now exists y, ys'.
Qed.

Lemma has_brackets_tail (row : str * str * Z) (rows : list (str * str * Z))
      (data data' : table) :
  has_brackets (row :: rows) data ->
  (forall br, dict_get br data' = None <-> dict_get br data = None) ->
  has_brackets rows data'.
Proof.
  intros H Hb br wc x Hin E. apply Hb in E.
  exact (H br wc x (or_intror Hin) E).
Qed.

(** The loop over [a_data]: a key keeps the leaf it has, and a new key
    gets the standard of its first row. *)
Lemma foldM_process_a_spec (A : list entry) :
  forall (ka : list (str * str * Z)) (data : table),
    mapM entry_key A = Ok ka ->
    has_brackets ka data ->
    exists data',
      foldM process_a A data = Ok data'
      /\ (forall br, dict_get br data' = None <-> dict_get br data = None)
      /\ forall br wc,
           lookup2 br wc data'
           = match lookup2 br wc data with
             | Some l => Some l
             | None => option_map (fun x => {| a := x; b := 0 |})
                                  (first_std (br, wc) ka)
             end.
Proof.
  induction A as [|e A IH]; intros ka data Hk Hb.
  - injection Hk as <-. exists data. split; [reflexivity|].
    split; [tauto|]. intros br wc. now destruct (lookup2 br wc data).
  - apply mapM_cons_ok in Hk as ([[br0 wc0] x0] & ka' & He & Hk' & ->).
    destruct (dict_get br0 data) as [weights|] eqn:Eb;
      [|exfalso; exact (Hb br0 wc0 x0 (or_introl eq_refl) Eb)].
    cbn [foldM]. unfold process_a at 1. rewrite He. cbn [bind]. rewrite Eb.
    destruct (dict_get wc0 weights) as [l0|] eqn:Ew; cbn [bind].
    + destruct (IH ka' data Hk') as (data' & Hf & Hbr & Hl).
      { eapply has_brackets_tail; [exact Hb | tauto]. }
      exists data'. split; [exact Hf|]. split; [exact Hbr|].
      intros br wc. rewrite Hl. cbn [first_std].
      destruct (key_eqb (br, wc) (br0, wc0)) eqn:Ek; [|reflexivity].
      apply key_eqb_eq in Ek. injection Ek as -> ->.
      unfold lookup2. now rewrite Eb, Ew.
    + set (data1 := dict_set br0
                      (dict_set wc0 {| a := x0; b := 0 |} weights) data).
      assert (Hbr1 : forall br,
                 dict_get br data1 = None <-> dict_get br data = None).
      { intros br. eapply brackets_store. exact Eb. }
      destruct (IH ka' data1 Hk') as (data' & Hf & Hbr & Hl).
      { eapply has_brackets_tail; [exact Hb | exact Hbr1]. }
      exists data'. split; [exact Hf|]. split.
      * intros br. rewrite Hbr. apply Hbr1.
      * intros br wc. rewrite Hl. unfold data1.
        rewrite (@lookup2_store _ _ _ _ _ _ _ Eb). cbn [first_std].
        destruct (key_eqb (br, wc) (br0, wc0)) eqn:Ek; [|reflexivity].
        apply key_eqb_eq in Ek. injection Ek as -> ->.
        unfold lookup2. now rewrite Eb, Ew.
Qed.

(** The loop over [b_data]: a key with a row gets the standard of its
    last row as [b] and keeps its [a], which is 0 for a new key. *)
Lemma foldM_process_b_spec (B : list entry) :
  forall (kb : list (str * str * Z)) (data : table),
    mapM entry_key B = Ok kb ->
    has_brackets kb data ->
    exists data',
      foldM process_b B data = Ok data'
      /\ (forall br, dict_get br data' = None <-> dict_get br data = None)
      /\ forall br wc,
           lookup2 br wc data'
           = match last_std (br, wc) kb with
             | Some y =>
                 Some {| a := match lookup2 br wc data with
                              | Some l => a l
                              | None => 0%Z
                              end;
                         b := y |}
             | None => lookup2 br wc data
             end.
Proof.
  induction B as [|e B IH]; intros kb data Hk Hb.
  - injection Hk as <-. exists data. split; [reflexivity|].
    split; [tauto|]. reflexivity.
  - apply mapM_cons_ok in Hk as ([[br0 wc0] y0] & kb' & He & Hk' & ->).
    destruct (dict_get br0 data) as [weights|] eqn:Eb;
      [|exfalso; exact (Hb br0 wc0 y0 (or_introl eq_refl) Eb)].
    cbn [foldM]. unfold process_b at 1. rewrite He. cbn [bind]. rewrite Eb.
    set (lf := match dict_get wc0 weights with
               | Some l => {| a := a l; b := y0 |}
               | None => {| a := 0; b := y0 |}
               end).
    set (data1 := dict_set br0 (dict_set wc0 lf weights) data).
    assert (Hstep : match dict_get wc0 weights with
                    | Some l =>
                        Ok (dict_set br0
                              (dict_set wc0 {| a := a l; b := y0 |} weights)
                              data)
                    | None =>
                        Ok (dict_set br0
                              (dict_set wc0 {| a := 0; b := y0 |} weights)
                              data)
                    end = Ok data1).
    { unfold data1, lf. now destruct (dict_get wc0 weights). }
    rewrite Hstep. cbn [bind].
    assert (Hbr1 : forall br,
               dict_get br data1 = None <-> dict_get br data = None).
    { intros br. eapply brackets_store. exact Eb. }
    destruct (IH kb' data1 Hk') as (data' & Hf & Hbr & Hl).
    { eapply has_brackets_tail; [exact Hb | exact Hbr1]. }
    exists data'. split; [exact Hf|]. split.
    + intros br. rewrite Hbr. apply Hbr1.
    + intros br wc. rewrite Hl. unfold data1.
      rewrite (@lookup2_store _ _ _ _ _ _ _ Eb). cbn [last_std].
      destruct (key_eqb (br, wc) (br0, wc0)) eqn:Ek.
      * apply key_eqb_eq in Ek. injection Ek as -> ->.
        assert (Ea : a lf = match lookup2 br0 wc0 data with
                            | Some l => a l
                            | None => 0%Z
                            end).
        { unfold lookup2, lf. rewrite Eb. now destruct (dict_get wc0 weights). }
        destruct (last_std (br0, wc0) kb'); cbn [a].
        -- now rewrite Ea.
        -- rewrite <- Ea. unfold lf. now destruct (dict_get wc0 weights).
      * now destruct (last_std (br, wc) kb').
Qed.

Lemma valid_bracket_present (br : str) :
  valid_bracket br -> dict_get br empty_table <> None.
Proof. intros [-> | [-> | ->]]; discriminate. Qed.

(** The merged table, key by key. *)
Lemma merge_lookup (A B : list entry) (ka kb : list (str * str * Z)) :
  mapM entry_key A = Ok ka ->
  mapM entry_key B = Ok kb ->
  (forall br wc x, In (br, wc, x) (ka ++ kb) -> valid_bracket br) ->
  exists data,
    merge A B = Ok data
    /\ forall br wc,
         lookup2 br wc data
         = merged_leaf (first_std (br, wc) ka) (last_std (br, wc) kb).
Proof.
  intros Ha Hb Hv.
  destruct (@foldM_process_a_spec A ka empty_table Ha) as (d1 & Hf1 & Hbr1 & Hl1).
  { intros br wc x Hin. apply valid_bracket_present.
    apply (Hv br wc x). apply in_or_app. now left. }
  destruct (@foldM_process_b_spec B kb d1 Hb) as (d2 & Hf2 & Hbr2 & Hl2).
  { intros br wc x Hin E. apply Hbr1 in E. revert E.
    apply valid_bracket_present.
    apply (Hv br wc x). apply in_or_app. now right. }
  exists d2. split.
  - unfold merge. rewrite Hf1. exact Hf2.
  - intros br wc. rewrite Hl2, Hl1.
    assert (E0 : lookup2 br wc empty_table = None).
    { unfold lookup2. destruct (dict_get br empty_table) as [w|] eqn:E;
        [|reflexivity].
      unfold empty_table in E. cbn [dict_get] in E.
      repeat match type of E with
             | context [if ?c then _ else _] => destruct c
             end;
        try discriminate; now injection E as <-. }
    rewrite E0.
    destruct (first_std (br, wc) ka), (last_std (br, wc) kb); reflexivity.
Qed.

Lemma first_std_none (k : str * str) (rows : list (str * str * Z)) :
  (forall x, ~ In (k, x) rows) -> first_std k rows = None.
Proof.
  induction rows as [|[k' x'] rows IH]; intros H; [reflexivity|].
  simpl. destruct (key_eqb k k') eqn:E.
  - apply key_eqb_eq in E. subst k'. exfalso. apply (H x'). now left.
  - apply IH. intros x Hin. apply (H x). now right.
Qed.

Lemma last_std_none (k : str * str) (rows : list (str * str * Z)) :
  (forall x, ~ In (k, x) rows) -> last_std k rows = None.
Proof.
  induction rows as [|[k' x'] rows IH]; intros H; [reflexivity|].
  simpl. rewrite IH.
  - destruct (key_eqb k k') eqn:E; [|reflexivity].
    apply key_eqb_eq in E. subst k'. exfalso. apply (H x'). now left.
  - intros x Hin. apply (H x). now right.
Qed.

Lemma key_eqb_refl (k : str * str) : key_eqb k k = true.
Proof. now apply key_eqb_eq. Qed.

Lemma first_std_app (k : str * str) (x : Z) (r1 r2 : list (str * str * Z)) :
  (forall x', ~ In (k, x') r1) ->
  first_std k (r1 ++ (k, x) :: r2) = Some x.
Proof.
  induction r1 as [|[k' x'] r1 IH]; intros H; simpl.
  - now rewrite key_eqb_refl.
  - destruct (key_eqb k k') eqn:E.
    + apply key_eqb_eq in E. subst k'. exfalso. apply (H x'). now left.
    + apply IH. intros y Hin. apply (H y). now right.
Qed.

Lemma last_std_app (k : str * str) (y : Z) (r1 r2 : list (str * str * Z)) :
  (forall y', ~ In (k, y') r2) ->
  last_std k (r1 ++ (k, y) :: r2) = Some y.
Proof.
  intros H. induction r1 as [|[k' x'] r1 IH]; simpl.
  - rewrite (@last_std_none _ _ H). now rewrite key_eqb_refl.
  - now rewrite IH.
Qed.

(** C3.  When every row of both tables has a key (bracket, gendered
    weight class, integer standard) and a bracket among Youth, Junior and
    Senior, the merger returns a table, built from the A-rows first and the
    B-rows after, that holds for each key: [a] from the A-table and [b]
    from the B-table when both have the key; [a] from the A-table and 0 for
    [b] when only the A-table has it; 0 for [a] and [b] from the B-table
    when only the B-table has it; and nothing for any other key. *)
Theorem merge_a_then_b (A B : list entry) (ka kb : list (str * str * Z)) :
  mapM entry_key A = Ok ka ->
  mapM entry_key B = Ok kb ->
  (forall br wc x, In (br, wc, x) (ka ++ kb) -> valid_bracket br) ->
  exists data,
    merge A B = Ok data
    /\ (exists d1, foldM process_a A empty_table = Ok d1
                   /\ foldM process_b B d1 = Ok data)
    /\ forall br wc,
         lookup2 br wc data
         = match first_std (br, wc) ka, last_std (br, wc) kb with
           | Some x, Some y => Some {| a := x; b := y |}
           | Some x, None => Some {| a := x; b := 0 |}
           | None, Some y => Some {| a := 0; b := y |}
           | None, None => None
           end.
Proof.
  intros Ha Hb Hv.
  destruct (@merge_lookup A B ka kb Ha Hb Hv) as (data & Hm & Hl).
  exists data. split; [exact Hm|]. split.
  - unfold merge in Hm.
    destruct (foldM process_a A empty_table) as [d1|]; [|discriminate].
    exists d1. split; [reflexivity | exact Hm].
  - exact Hl.
Qed.

Lemma merge_a_then_b_witness :
  exists data,
    merge a_table_example b_table_example = Ok data
    /\ lookup2 (L "Senior") (L "Male 60kg") data
       = Some {| a := 120; b := 110 |}
    /\ lookup2 (L "Senior") (L "Female 55kg") data
       = Some {| a := 100; b := 0 |}
    /\ lookup2 (L "Junior") (L "Male 67kg") data
       = Some {| a := 0; b := 90 |}.
Proof.
  destruct (@merge_a_then_b a_table_example b_table_example
              [(L "Senior", L "Male 60kg", 120%Z);
               (L "Senior", L "Female 55kg", 100%Z)]
              [(L "Senior", L "Male 60kg", 110%Z);
               (L "Junior", L "Male 67kg", 90%Z)])
    as (data & Hm & _ & Hl).
  - vm_compute. reflexivity.
  - vm_compute. reflexivity.
  - simpl. unfold valid_bracket.
    intros br wc x [H|[H|[H|[H|[]]]]]; injection H as <- _ _; tauto.
  - exists data. split; [exact Hm|].
    rewrite !Hl. repeat split; reflexivity.
Defined.

(** C9.  With the rows as in C3: the [a] of a key is the standard of the
    first A-row with that key, whatever A-rows follow it; the [b] of a key
    is the standard of the last B-row with that key, whatever B-rows come
    before it. *)
Theorem duplicate_keys_first_a_last_b
        (A B : list entry) (ka kb : list (str * str * Z)) :
  mapM entry_key A = Ok ka ->
  mapM entry_key B = Ok kb ->
  (forall br wc x, In (br, wc, x) (ka ++ kb) -> valid_bracket br) ->
  exists data,
    merge A B = Ok data
    /\ (forall br wc x before after,
          ka = before ++ (br, wc, x) :: after ->
          (forall x', ~ In (br, wc, x') before) ->
          exists lf, lookup2 br wc data = Some lf /\ a lf = x)
    /\ (forall br wc y before after,
          kb = before ++ (br, wc, y) :: after ->
          (forall y', ~ In (br, wc, y') after) ->
          exists lf, lookup2 br wc data = Some lf /\ b lf = y).
Proof.
  intros Ha Hb Hv.
  destruct (@merge_lookup A B ka kb Ha Hb Hv) as (data & Hm & Hl).
  exists data. split; [exact Hm|]. split.
  - intros br wc x before after -> Hn. rewrite Hl.
    rewrite (@first_std_app _ x _ after Hn).
    destruct (last_std (br, wc) kb); eexists; split; reflexivity.
  - intros br wc y before after -> Hn. rewrite Hl.
    rewrite (@last_std_app _ y before _ Hn).
    destruct (first_std (br, wc) ka); eexists; split; reflexivity.
Qed.

Lemma duplicate_keys_first_a_last_b_witness :
  exists data,
    merge a_table_twice b_table_twice = Ok data
    /\ lookup2 (L "Senior") (L "Male 60kg") data
       = Some {| a := 120; b := 115 |}.
Proof.
  destruct (@duplicate_keys_first_a_last_b a_table_twice b_table_twice
              [(L "Senior", L "Male 60kg", 120%Z);
               (L "Senior", L "Male 60kg", 125%Z)]
              [(L "Senior", L "Male 60kg", 110%Z);
               (L "Senior", L "Male 60kg", 115%Z)])
    as (data & Hm & Hfirst & Hlast).
  - vm_compute. reflexivity.
  - vm_compute. reflexivity.
  - simpl. unfold valid_bracket.
    intros br wc x [H|[H|[H|[H|[]]]]]; injection H as <- _ _; tauto.
  - exists data. split; [exact Hm|].
    destruct (Hfirst (L "Senior") (L "Male 60kg") 120%Z []
                [(L "Senior", L "Male 60kg", 125%Z)] eq_refl)
      as (lf & E & Ea); [intros x' []|].
    destruct (Hlast (L "Senior") (L "Male 60kg") 115%Z
                [(L "Senior", L "Male 60kg", 110%Z)] [] eq_refl)
      as (lf' & E' & Eb); [intros y' []|].
    rewrite E in E'. injection E' as <-. rewrite E.
    destruct lf as [x y]. simpl in Ea, Eb. now subst.
Defined.

(** ** Ordering *)

Lemma code_inj (x y : ascii) : code x = code y -> x = y.
Proof.
  unfold code. intros H.
  rewrite <- (ascii_N_embedding x), <- (ascii_N_embedding y). now rewrite H.
Qed.

Lemma str_compare_eq (x y : str) : str_compare x y = Eq <-> x = y.
Proof.
  revert y; induction x as [|c x IH]; intros [|d y]; simpl;
    try (split; [discriminate | congruence]); [tauto|].
  destruct (N.compare_spec (code c) (code d)) as [E|E|E].
  - apply code_inj in E. subst d. rewrite IH. split; congruence.
  - split; [discriminate|]. intros [= -> _]. lia.
  - split; [discriminate|]. intros [= -> _]. lia.
Qed.

Lemma str_compare_antisym (x y : str) :
  str_compare y x = CompOpp (str_compare x y).
Proof.
  revert y; induction x as [|c x IH]; intros [|d y]; simpl; try reflexivity.
  rewrite (N.compare_antisym (code c) (code d)).
  destruct (code c ?= code d)%N; simpl; [apply IH | reflexivity | reflexivity].
Qed.

Lemma str_ltb_trans (x y z : str) :
  str_ltb x y = true -> str_ltb y z = true -> str_ltb x z = true.
Proof.
  unfold str_ltb. revert y z; induction x as [|c x IH]; intros [|d y] [|e z];
    simpl; try discriminate; try reflexivity.
  destruct (N.compare_spec (code c) (code d)) as [E1|E1|E1];
    destruct (N.compare_spec (code d) (code e)) as [E2|E2|E2];
    try discriminate; intros H1 H2.
  - rewrite E1, E2, N.compare_refl. exact (IH _ _ H1 H2).
  - rewrite E1. apply N.compare_lt_iff in E2. now rewrite E2.
  - rewrite <- E2. apply N.compare_lt_iff in E1. now rewrite E1.
  - assert (E : (code c < code e)%N) by lia.
    apply N.compare_lt_iff in E. now rewrite E.
Qed.

Lemma str_ltb_irrefl (x : str) : str_ltb x x = false.
Proof.
  unfold str_ltb. now rewrite (proj2 (str_compare_eq x x) eq_refl).
Qed.

Lemma str_ltb_total (x y : str) :
  x <> y -> str_ltb x y = false -> str_ltb y x = true.
Proof.
  unfold str_ltb. intros Hne. rewrite (str_compare_antisym x y).
  destruct (str_compare x y) eqn:E; simpl; try discriminate; [|reflexivity].
  apply str_compare_eq in E. contradiction.
Qed.

Lemma float_ltb_trans (x y z : pyfloat) :
  float_ltb x y = true -> float_ltb y z = true -> float_ltb x z = true.
Proof.
  destruct x as [|[|]|x], y as [|[|]|y], z as [|[|]|z]; simpl;
    try discriminate; try reflexivity.
  rewrite !Z.ltb_lt. lia.
Qed.

Lemma float_eqb_eq (x y : pyfloat) : float_eqb x y = true -> x = y.
Proof.
  destruct x as [|[|]|x], y as [|[|]|y]; simpl; try discriminate;
    try reflexivity.
  rewrite Z.eqb_eq. now intros ->.
Qed.

Lemma float_ltb_total (x y : pyfloat) :
  x <> FNan -> y <> FNan ->
  float_eqb x y = false -> float_ltb x y = false -> float_ltb y x = true.
Proof.
  destruct x as [|[|]|x], y as [|[|]|y]; simpl; try discriminate;
    try reflexivity; try contradiction.
  intros _ _. rewrite Z.eqb_neq, !Z.ltb_ge, Z.ltb_lt. lia.
Qed.

Lemma float_le_trans (x y z : pyfloat) :
  float_le x y -> float_le y z -> float_le x z.
Proof.
  intros [H1| ->] [H2| ->]; try (now left); try (now right).
  left. eapply float_ltb_trans; eassumption.
Qed.

Lemma key_le_trans (k1 k2 k3 : sort_key) :
  key_le k1 k2 -> key_le k2 k3 -> key_le k1 k3.
Proof.
  intros [H1|[E1 H1]] [H2|[E2 H2]].
  - left. eapply str_ltb_trans; eassumption.
  - left. now rewrite <- E2.
  - left. now rewrite E1.
  - right. split; [congruence|]. eapply float_le_trans; eassumption.
Qed.

(** When [k1 < k2] holds, [k1] is to come no later than [k2]. *)
Lemma key_ltb_le (k1 k2 : sort_key) : key_ltb k1 k2 = true -> key_le k1 k2.
Proof.
  unfold key_ltb, key_le. destruct (str_eqb (fst k1) (fst k2)) eqn:E.
  - apply str_eqb_eq in E. destruct (float_eqb (snd k1) (snd k2));
      [discriminate|].
    intros H. right. split; [exact E | now left].
  - intros H. now left.
Qed.

(** When [k1 < k2] fails and neither weight is a NaN, [k2] is to come no
    later than [k1]. *)
Lemma key_ltb_false_le (k1 k2 : sort_key) :
  snd k1 <> FNan -> snd k2 <> FNan ->
  key_ltb k1 k2 = false -> key_le k2 k1.
Proof.
  unfold key_ltb, key_le. intros N1 N2.
  destruct (str_eqb (fst k1) (fst k2)) eqn:E.
  - apply str_eqb_eq in E. destruct (float_eqb (snd k1) (snd k2)) eqn:Ef.
    + apply float_eqb_eq in Ef. intros _. right.
      split; [congruence | right; congruence].
    + intros H. right. split; [congruence|]. left.
      now apply float_ltb_total.
  - apply str_eqb_neq in E. intros H. left. now apply str_ltb_total.
Qed.

Section StableSort.

Variables (A K : Type) (ltb : K -> K -> bool).
Variables (le : K -> K -> Prop) (good : K -> Prop).

Hypothesis le_trans : forall x y z, le x y -> le y z -> le x z.
Hypothesis ltb_le : forall x y, ltb x y = true -> le x y.
Hypothesis ltb_false_le :
  forall x y, good x -> good y -> ltb x y = false -> le y x.

Lemma insert_stable_perm (x : K * A) (l : list (K * A)) :
  Permutation (x :: l) (insert_stable ltb x l).
Proof.
  induction l as [|y l IH]; simpl; [reflexivity|].
  destruct (ltb (fst y) (fst x)); [|reflexivity].
  rewrite perm_swap. now constructor.
Qed.

Lemma stable_sort_perm (l : list (K * A)) :
  Permutation l (stable_sort ltb l).
Proof.
  induction l as [|x l IH]; simpl; [reflexivity|].
  rewrite <- insert_stable_perm. now constructor.
Qed.

Lemma insert_stable_sorted (x : K * A) (l : list (K * A)) :
  good (fst x) -> Forall (fun i => good (fst i)) l ->
  StronglySorted (by_key le) l ->
  StronglySorted (by_key le) (insert_stable ltb x l).
Proof.
  intros Gx Gl Hs. induction Hs as [|y l Hs IH Hy]; simpl.
  - constructor; constructor.
  - inversion Gl as [|? ? Gy Gl']; subst.
    destruct (ltb (fst y) (fst x)) eqn:E.
    + constructor; [now apply IH|].
      rewrite <- insert_stable_perm. constructor; [|exact Hy].
      now apply ltb_le.
    + assert (Hxy : by_key le x y) by (apply ltb_false_le; assumption).
      constructor; [now constructor|].
      constructor; [exact Hxy|].
      eapply Forall_impl; [|exact Hy].
      intros z Hz. unfold by_key in *. eapply le_trans; eassumption.
Qed.

Lemma stable_sort_sorted (l : list (K * A)) :
  Forall (fun i => good (fst i)) l ->
  StronglySorted (by_key le) (stable_sort ltb l).
Proof.
  induction 1 as [|x l Gx Gl IH]; simpl; [constructor|].
  apply insert_stable_sorted; [exact Gx| |exact IH].
  now rewrite <- stable_sort_perm.
Qed.

End StableSort.

Lemma mapM_keyed (ws : dict leaf) (keyed : list (sort_key * (str * leaf))) :
  mapM sort_key_of_item ws = Ok keyed ->
  map snd keyed = ws
  /\ Forall (fun p => weight_class_sort_key (fst (snd p)) = Ok (fst p)) keyed.
Proof.
  revert keyed; induction ws as [|it ws IH]; intros keyed H.
  - injection H as <-. split; [reflexivity | constructor].
  - apply mapM_cons_ok in H as (p & keyed' & Hp & Hk & ->).
    unfold sort_key_of_item in Hp.
    destruct (weight_class_sort_key (fst it)) as [k|] eqn:E; [|discriminate].
    injection Hp as <-. destruct (IH _ Hk) as [Hm Hf].
    split; [simpl; now rewrite Hm | constructor; assumption].
Qed.

Lemma sorted_by_key_items (l : list (sort_key * (str * leaf))) :
  Forall (fun p => weight_class_sort_key (fst (snd p)) = Ok (fst p)) l ->
  StronglySorted (by_key key_le) l ->
  StronglySorted item_le (map snd l).
Proof.
  intros Hk Hs. induction Hs as [|p l Hs IH Hp]; simpl; [constructor|].
  inversion Hk as [|? ? Kp Kl]; subst.
  constructor; [now apply IH|].
  apply Forall_map. rewrite Forall_forall in *.
  intros q Hq. exists (fst p), (fst q).
  split; [exact Kp|]. split; [now apply Kl | now apply Hp].
Qed.

Lemma strongly_sorted_after {X} (R : X -> X -> Prop) (pre post : list X)
      (x : X) :
  StronglySorted R (pre ++ x :: post) -> Forall (R x) post.
Proof.
  induction pre as [|y pre IH]; simpl; intros H; inversion H; subst.
  - assumption.
  - now apply IH.
Qed.

(** C4.  When every key of a bracket has a sort key and none of the
    weights read as a number is a NaN, the items of the bracket are
    emitted in an order that is a rearrangement of them and in which each
    item comes no later than all that follow it: by gender string first,
    by weight among equal genders; an open class, with [+] before its
    number, counts as infinite, so no class with a finite weight and the
    same gender follows it. *)
Theorem sorted_items_order
        (weights : dict leaf) (keyed : list (sort_key * (str * leaf))) :
  mapM sort_key_of_item weights = Ok keyed ->
  (forall k it, In (k, it) keyed -> snd k <> FNan) ->
  exists items,
    sorted_items weights = Ok items
    /\ Permutation weights items
    /\ StronglySorted item_le items
    /\ (forall pre wc lf post g w,
          items = pre ++ (wc, lf) :: post ->
          split_first " " wc = Some (g, w) ->
          startswith (L "+") w = true ->
          forall wc' lf' x,
            In (wc', lf') post ->
            weight_class_sort_key wc' = Ok (g, x) ->
            x = FInf false)
    /\ forall bracket,
         bracket_text bracket weights
         = Ok (L "    " ++ bracket ++ L ": {" ++ [newline]
                 ++ concat (map entry_line items)
                 ++ L "    }," ++ [newline]).
Proof.
  intros Hk Hnan.
  destruct (mapM_keyed _ Hk) as [Hm Hkey].
  set (sorted := stable_sort key_ltb keyed).
  assert (Hperm : Permutation keyed sorted) by apply stable_sort_perm.
  assert (Hs : sorted_items weights = Ok (map snd sorted)).
  { unfold sorted_items. now rewrite Hk. }
  assert (Hsorted : StronglySorted item_le (map snd sorted)).
  { apply sorted_by_key_items.
    - now rewrite <- Hperm.
    - apply (@stable_sort_sorted _ _ key_ltb key_le (fun k => snd k <> FNan)).
      + apply key_le_trans.
      + apply key_ltb_le.
      + intros x y Gx Gy H. now apply key_ltb_false_le.
      + apply Forall_forall. intros [k it] Hin. exact (Hnan k it Hin). }
  exists (map snd sorted). split; [exact Hs|]. split.
  - rewrite <- Hm. now apply Permutation_map.
  - split; [exact Hsorted|]. split.
    + intros pre wc lf post g w Hi Hsp Hplus wc' lf' x Hin Hkey'.
      rewrite Hi in Hsorted. apply strongly_sorted_after in Hsorted.
      rewrite Forall_forall in Hsorted.
      destruct (Hsorted _ Hin) as (ki & kj & Hki & Hkj & Hle).
      cbn [fst] in Hki, Hkj. rewrite Hkey' in Hkj. injection Hkj as <-.
      unfold weight_class_sort_key in Hki. rewrite Hsp, Hplus in Hki.
      injection Hki as <-. unfold key_le, float_le in Hle.
      cbn [fst snd] in Hle. destruct Hle as [Hlt|[_ [Hlt|Heq]]].
      * now rewrite str_ltb_irrefl in Hlt.
      * destruct x as [|[|]|x]; discriminate.
      * now symmetry.
    + intros bracket. unfold bracket_text. now rewrite Hs.
Qed.

Lemma sorted_items_order_witness :
  exists items,
    sorted_items female_classes = Ok items
    /\ map fst items = [L "Female 50kg"; L "Female 55kg"; L "Female +65kg"]
    /\ StronglySorted item_le items.
Proof.
  destruct (@sorted_items_order female_classes
              [((L "Female", FFin (55 * 2 ^ ulp_exp)), (L "Female 55kg", lf0));
               ((L "Female", FInf false), (L "Female +65kg", lf0));
               ((L "Female", FFin (50 * 2 ^ ulp_exp)), (L "Female 50kg", lf0))])
    as (items & Hs & _ & Hsorted & _).
  - vm_compute. reflexivity.
  - simpl. intros k it [H|[H|[H|[]]]]; injection H as <- _; discriminate.
  - exists items. split; [exact Hs|]. split; [|exact Hsorted].
    vm_compute in Hs. injection Hs as <-. reflexivity.
Defined.

(** ** Errors *)

Lemma mapM_err {A B} (f : A -> result B) (l : list A) (x : A) (e : exn) :
  In x l -> f x = Err e -> exists e', mapM f l = Err e'.
Proof.
  induction l as [|y l IH]; intros Hin Hx; [contradiction|].
  simpl. destruct Hin as [->|Hin].
  - rewrite Hx. now exists e.
  - destruct (f y) as [z|e1]; [|now exists e1]. simpl.
    destruct (IH Hin Hx) as [e' ->]. now exists e'.
Qed.

Lemma foldM_err {S X} (f : S -> X -> result S) (l : list X) (x : X) :
  In x l -> (forall s, exists e, f s x = Err e) ->
  forall s, exists e, foldM f l s = Err e.
Proof.
  induction l as [|y l IH]; intros Hin Hx s; [contradiction|].
  simpl. destruct Hin as [->|Hin].
  - destruct (Hx s) as [e ->]. now exists e.
  - destruct (f s y) as [s'|e1]; [|now exists e1]. simpl. now apply IH.
Qed.

Lemma entry_key_err (e : entry) :
  float_of_str (weight_standard e) = Err ValueError ->
  exists err, entry_key e = Err err.
Proof.
  intros H. unfold entry_key. destruct (split_ws (age_group e)).
  - now exists IndexError.
  - rewrite H. now exists ValueError.
Qed.

(** C7.  Nothing guards the numbers.  A row whose standard [float]
    rejects, in either table, makes [format_as_typescript] end in an
    exception and not in a text, and so does a weight class of the merged
    table whose sort key cannot be computed; and on the two tables shown,
    one with the standard [abc] and one with the weight class [60lb], the
    exception is the [ValueError] of [float]. *)
Theorem unparseable_number_raises :
  (forall A B e,
      In e (A ++ B) ->
      float_of_str (weight_standard e) = Err ValueError ->
      exists err, format_as_typescript A B = Err err)
  /\ (forall A B data bracket weights wc lf,
        merge A B = Ok data ->
        In (bracket, weights) data ->
        In (wc, lf) weights ->
        weight_class_sort_key wc = Err ValueError ->
        exists err, format_as_typescript A B = Err err)
  /\ format_as_typescript [row "Senior Men" "60kg" "abc"] [] = Err ValueError
  /\ format_as_typescript [row "Senior Men" "60lb" "100"] [] = Err ValueError.
Proof.
  split; [|split; [|split; vm_compute; reflexivity]].
  - intros A B e Hin Hf. apply entry_key_err in Hf as [err He].
    unfold format_as_typescript, merge.
    apply in_app_or in Hin as [Hin|Hin].
    + destruct (@foldM_err _ _ process_a A e Hin) with (s := empty_table)
        as [e' ->].
      * intros s. exists err. unfold process_a. now rewrite He.
      * now exists e'.
    + destruct (foldM process_a A empty_table) as [d1|e1];
        [|now exists e1].
      cbn [bind].
      destruct (@foldM_err _ _ process_b B e Hin) with (s := d1) as [e' ->].
      * intros s. exists err. unfold process_b. now rewrite He.
      * now exists e'.
  - intros A B data bracket weights wc lf Hm Hb Hw Hk.
    unfold format_as_typescript. rewrite Hm. cbn [bind].
    assert (Hbt : exists e1, bracket_text bracket weights = Err e1).
    { unfold bracket_text, sorted_items.
      destruct (@mapM_err _ _ sort_key_of_item weights (wc, lf) ValueError Hw)
        as [e1 E].
      - unfold sort_key_of_item. cbn [fst]. now rewrite Hk.
      - rewrite E. now exists e1. }
    destruct Hbt as [e1 He1].
    destruct (@mapM_err _ _ (fun kv => bracket_text (fst kv) (snd kv))
                data (bracket, weights) e1 Hb He1) as [e' ->].
    now exists e'.
Qed.

Lemma unparseable_number_raises_witness :
  exists err,
    format_as_typescript [row "Senior Men" "60kg" "120"]
                         [row "Senior Men" "60kg" "12O"] = Err err.
Proof.
  apply (proj1 unparseable_number_raises
           [row "Senior Men" "60kg" "120"] [row "Senior Men" "60kg" "12O"]
           (row "Senior Men" "60kg" "12O")).
  - simpl. right. left. reflexivity.
  - vm_compute. reflexivity.
Defined.

(** ** Determinism *)

(** C8.  The text that is printed and written is a function of the two
    extracted texts: runs on equal inputs end alike, with the same text or
    with the same exception. *)
Theorem pipeline_deterministic (a1 b1 a2 b2 : str) :
  a1 = a2 -> b1 = b2 -> pipeline a1 b1 = pipeline a2 b2.
Proof. intros -> ->. reflexivity. Qed.

Lemma pipeline_deterministic_witness :
  pipeline boundary_text swapped_text = pipeline boundary_text swapped_text.
Proof.
  apply (@pipeline_deterministic boundary_text swapped_text
           boundary_text swapped_text); reflexivity.
Defined.

(** * Further properties *)

(** ** Words *)

Lemma split_ws_aux_words (cur s : str) :
  Forall (fun c => isspace c = false) cur ->
  Forall word (split_ws_aux cur s).
Proof.
  assert (R : forall l : str,
             l <> [] -> Forall (fun c => isspace c = false) l ->
             word (rev l)).
  { intros l Hne Hl. split.
    - intros H. apply (f_equal (@rev _)) in H. rewrite rev_involutive in H.
      now apply Hne.
    - now apply Forall_rev. }
  revert cur; induction s as [|c s IH]; intros cur Hc; simpl.
  - destruct cur as [|d cur]; constructor; [|constructor].
    apply R; [discriminate | exact Hc].
  - destruct (isspace c) eqn:E.
    + destruct cur as [|d cur]; [now apply IH|].
      constructor; [apply R; [discriminate | exact Hc] | now apply IH].
    + apply IH. now constructor.
Qed.

Lemma split_ws_words (s : str) : Forall word (split_ws s).
Proof. apply split_ws_aux_words. constructor. Qed.

Lemma lstrip_word (w : str) :
  Forall (fun c => isspace c = false) w -> lstrip w = w.
Proof. destruct 1 as [|c w' Hc _]; simpl; [reflexivity | now rewrite Hc]. Qed.

Lemma strip_nospace (w : str) :
  Forall (fun c => isspace c = false) w -> strip w = w.
Proof.
  intros H. unfold strip, rstrip. rewrite (lstrip_word H).
  rewrite lstrip_word; [apply rev_involutive | now apply Forall_rev].
Qed.

Lemma replace_aux_nospace (old : str) (skip : nat) (s : str) :
  Forall (fun c => isspace c = false) s ->
  Forall (fun c => isspace c = false) (replace_aux old [] skip s).
Proof.
  intros H. revert skip. induction H as [|c s Hc Hs IH]; intros skip; simpl.
  - constructor.
  - destruct skip; [|apply IH].
    destruct (startswith old (c :: s)); simpl; [apply IH|].
    constructor; [exact Hc | apply IH].
Qed.

Lemma replace_nospace (old s : str) :
  old <> [] ->
  Forall (fun c => isspace c = false) s ->
  Forall (fun c => isspace c = false) (replace old [] s).
Proof.
  intros Hne H. unfold replace. destruct old; [contradiction|].
  now apply replace_aux_nospace.
Qed.

Lemma filter_words (ws : list str) :
  Forall word ws -> filter (fun w => nonempty (strip w)) ws = ws.
Proof.
  induction 1 as [|w ws [Hne Hw] _ IH]; [reflexivity|].
  cbn [filter]. rewrite (strip_nospace Hw).
  destruct w; [contradiction|]. cbn [nonempty]. now rewrite IH.
Qed.

Lemma weight_classes_split (m : mobj) :
  weight_classes_of m = split_ws (group_1 m).
Proof.
  unfold weight_classes_of.
  pose proof (split_ws_words (group_1 m)) as H.
  rewrite (filter_words H). rewrite <- (map_id (split_ws _)) at 2.
  apply map_ext_in. intros w Hin. rewrite Forall_forall in H.
  apply strip_nospace. now apply H.
Qed.

Lemma totals_split (m : mobj) :
  totals_of m = map (replace (L "kg") []) (split_ws (group_1 m)).
Proof.
  unfold totals_of.
  pose proof (split_ws_words (group_1 m)) as H.
  rewrite (filter_words H).
  apply map_ext_in. intros w Hin. rewrite Forall_forall in H.
  apply strip_nospace. apply replace_nospace; [discriminate|].
  now apply H.
Qed.

(** X1.  The [strip] calls and the [if ...strip()] filters of the two list
    comprehensions change nothing: the weight classes are the words of
    group 1 as [split] returns them, and the totals are those words with
    every [kg] taken out. *)
Theorem comprehensions_are_split (weight_line total_line : mobj) :
  weight_classes_of weight_line = split_ws (group_1 weight_line)
  /\ totals_of total_line
     = map (replace (L "kg") []) (split_ws (group_1 total_line)).
Proof. split; [apply weight_classes_split | apply totals_split]. Qed.

Lemma split_ws_join (ws : list str) :
  Forall word ws -> split_ws (join_space ws) = ws.
Proof.
  unfold split_ws. induction 1 as [|w ws [Hne Hw] Hws IH]; [reflexivity|].
  assert (Er : exists c cur, rev w = c :: cur).
  { destruct (rev w) as [|c cur] eqn:E; [|now exists c, cur].
    apply (f_equal (@rev _)) in E. rewrite rev_involutive in E.
    contradiction. }
  destruct Er as (c & cur & Er).
  destruct ws as [|w2 ws].
  - simpl. rewrite <- (app_nil_r w) at 1.
    rewrite (split_ws_aux_word [] [] Hw), app_nil_r. simpl.
    rewrite Er, <- Er. now rewrite rev_involutive.
  - change (join_space (w :: w2 :: ws))
      with (w ++ [" "%char] ++ join_space (w2 :: ws)).
    rewrite (split_ws_aux_word [] _ Hw), app_nil_r, Er.
    rewrite split_ws_aux_gap.
    + rewrite <- Er, rev_involutive. now rewrite IH.
    + constructor; [reflexivity | constructor].
    + discriminate.
Qed.

(** X2.  Normalising a normalised text changes nothing. *)
Theorem clean_text_idempotent (s : str) :
  clean_text (clean_text s) = clean_text s.
Proof.
  rewrite !clean_text_join. rewrite split_ws_join; [reflexivity|].
  apply split_ws_words.
Qed.

Lemma split_ws_aux_started (cur s : str) :
  cur <> [] -> split_ws_aux cur s <> [].
Proof.
  revert cur; induction s as [|d s IH]; intros cur Hne; simpl.
  - destruct cur; [contradiction | discriminate].
  - destruct (isspace d).
    + destruct cur; [contradiction | discriminate].
    + apply IH. discriminate.
Qed.

Lemma split_ws_blank_iff (s : str) : split_ws s = [] <-> blank s.
Proof.
  unfold split_ws, blank. induction s as [|c s IH]; simpl.
  - split; [constructor | reflexivity].
  - destruct (isspace c) eqn:E.
    + rewrite IH. split.
      * intros H. now constructor.
      * intros H. now inversion H.
    + split.
      * intros H. exfalso. revert H. apply split_ws_aux_started. discriminate.
      * intros H. inversion H; congruence.
Qed.

(** X3.  The normal form is empty exactly for the texts made of whitespace
    only (the empty text among them). *)
Theorem clean_text_empty_iff (s : str) : clean_text s = [] <-> blank s.
Proof.
  rewrite clean_text_join, <- split_ws_blank_iff. split.
  - apply join_space_nil. apply split_ws_aux_nonempty.
  - now intros ->.
Qed.

(** ** The scraper *)

Lemma scrape_loop_absent (text : str) (groups : list str) (data : list entry) :
  (forall g, In g groups -> absent (label g) text) ->
  scrape_loop text groups data = data.
Proof.
  revert data; induction groups as [|g later IH]; intros data H;
    [reflexivity|].
  simpl. unfold section_text.
  rewrite (proj2 (find_none_iff (label g) text) (H g (or_introl eq_refl))).
  apply IH. intros h Hh. apply H. now right.
Qed.

Lemma absent_in_nil (g : str) : absent (label g) [].
Proof.
  intros n H. apply occurs_at_bound in H. unfold label in H.
  rewrite length_app in H. simpl in H. lia.
Qed.

(** X4.  A text without any of the six labels gives no rows, and two such
    texts give the table with three empty brackets; nothing is raised.
    Texts of whitespace only, the empty text among them, are of this
    kind. *)
Theorem label_free_texts_give_empty_table (a_text b_text : str) :
  (forall g, In g age_groups ->
             absent (label g) (clean_text a_text)
             /\ absent (label g) (clean_text b_text)) ->
  scrape_text a_text = []
  /\ scrape_text b_text = []
  /\ pipeline a_text b_text = Ok empty_output.
Proof.
  intros H.
  assert (Ea : scrape_text a_text = []).
  { apply scrape_loop_absent. intros g Hg. now apply H. }
  assert (Eb : scrape_text b_text = []).
  { apply scrape_loop_absent. intros g Hg. now apply H. }
  split; [exact Ea|]. split; [exact Eb|].
  unfold pipeline. rewrite Ea, Eb. reflexivity.
Qed.

Lemma label_free_texts_give_empty_table_witness :
  pipeline (L "  ") (L "no tables on this page") = Ok empty_output.
Proof.
  apply (@label_free_texts_give_empty_table (L "  ")
           (L "no tables on this page")).
  intros g Hg. split; apply find_none_iff;
    repeat (destruct Hg as [<-|Hg]; [reflexivity|]); destruct Hg.
Defined.

Lemma blank_text_label_free (raw g : str) :
  blank raw -> absent (label g) (clean_text raw).
Proof.
  intros H. apply split_ws_blank_iff in H.
  rewrite clean_text_join, H. apply absent_in_nil.
Qed.

Lemma next_section_start_hd (text : str) (later : list str) :
  next_section_start text later
  = hd (length text) (found_offsets text later).
Proof.
  induction later as [|g later IH]; [reflexivity|].
  simpl. unfold found_offsets. simpl.
  destruct (find (label g) text); [reflexivity | exact IH].
Qed.

Lemma found_offsets_bound (text : str) (groups : list str) :
  Forall (fun p => p <= length text) (found_offsets text groups).
Proof.
  induction groups as [|g later IH]; [constructor|].
  unfold found_offsets. simpl.
  destruct (find (label g) text) as [p|] eqn:E; [|exact IH].
  constructor; [|exact IH].
  apply find_some_iff in E. destruct E as [E _].
  apply occurs_at_bound in E. lia.
Qed.

Lemma sections_tile (text : str) (groups : list str) :
  Sorted le (found_offsets text groups) ->
  concat (sections_of text groups)
  = skipn (hd (length text) (found_offsets text groups)) text.
Proof.
  induction groups as [|g later IH]; intros Hs.
  - simpl. now rewrite skipn_all.
  - cbn [sections_of]. unfold section_text.
    unfold found_offsets in Hs |- *. cbn [flat_map] in Hs |- *.
    destruct (find (label g) text) as [st|] eqn:E; [|now apply IH].
    cbn [app hd concat] in Hs |- *. fold (found_offsets text later) in Hs.
    inversion Hs as [|? ? Hs' Hhd]; subst.
    rewrite (IH Hs'), <- next_section_start_hd.
    set (en := next_section_start text later).
    assert (Hle : st <= en).
    { unfold en. rewrite next_section_start_hd.
      destruct (found_offsets text later) as [|p ps] eqn:Ef; simpl.
      - apply find_some_iff in E. destruct E as [E _].
        apply occurs_at_bound in E. lia.
      - now inversion Hhd. }
    unfold slice.
    replace (skipn en text) with (skipn (en - st) (skipn st text)).
    + apply firstn_skipn.
    + rewrite skipn_skipn. f_equal. lia.
Qed.

(** X5.  When the labels that occur come in the text in the order of the
    list, the sections follow one another without gap or overlap: put
    together they are the text from the first label found to the end. *)
Theorem sections_tile_the_text (text : str) :
  Sorted le (found_offsets text age_groups) ->
  concat (sections_of text age_groups)
  = skipn (hd (length text) (found_offsets text age_groups)) text.
Proof. apply sections_tile. Qed.

Lemma sections_tile_the_text_witness :
  concat (sections_of boundary_text age_groups) = boundary_text.
Proof.
  apply (@sections_tile_the_text boundary_text).
  vm_compute. repeat constructor.
Defined.

Lemma in_scrape_loop (text : str) (groups : list str) (data : list entry)
      (e : entry) :
  In e (scrape_loop text groups data) ->
  In e data
  \/ exists g section, In g groups /\ In e (section_records g section).
Proof.
  revert data; induction groups as [|g later IH]; intros data H.
  - now left.
  - simpl in H. destruct (section_text text g later) as [sec|].
    + apply IH in H. destruct H as [H|(h & s & Hh & Hs)].
      * apply in_app_or in H. destruct H as [H|H]; [now left|].
        right. exists g, sec. split; [now left | exact H].
      * right. exists h, s. split; [now right | exact Hs].
    + apply IH in H. destruct H as [H|(h & s & Hh & Hs)]; [now left|].
      right. exists h, s. split; [now right | exact Hs].
Qed.

Lemma in_section_records (g section : str) (e : entry) :
  In e (section_records g section) ->
  age_group e = g
  /\ word (weight_class e)
  /\ Forall (fun c => isspace c = false) (weight_standard e).
Proof.
  unfold section_records, extract_section_data.
  destruct (re_search true weight_pattern section) as [w|];
    [|intros []].
  destruct (re_search true total_pattern section) as [t|];
    [|intros []].
  destruct (length (weight_classes_of w) =? length (totals_of t));
    [|intros []].
  intros H. apply in_map_iff in H as ([wc tot] & <- & Hin).
  pose proof (in_combine_l _ _ _ _ Hin) as Hw.
  pose proof (in_combine_r _ _ _ _ Hin) as Ht.
  cbn [age_group weight_class weight_standard fst snd].
  split; [reflexivity|]. split.
  - rewrite weight_classes_split in Hw.
    pose proof (split_ws_words (group_1 w)) as H.
    rewrite Forall_forall in H. now apply H.
  - rewrite totals_split in Ht. apply in_map_iff in Ht as (x & <- & Hx).
    apply replace_nospace; [discriminate|].
    pose proof (split_ws_words (group_1 t)) as H.
    rewrite Forall_forall in H. now apply H.
Qed.

(** X6.  Every row the scraper returns carries one of the six labels as its
    age group, a weight class that is not empty and has no whitespace in
    it, and a standard without whitespace. *)
Theorem scraped_rows_well_formed (raw : str) (e : entry) :
  In e (scrape_text raw) ->
  In (age_group e) age_groups
  /\ word (weight_class e)
  /\ Forall (fun c => isspace c = false) (weight_standard e).
Proof.
  intros H. apply in_scrape_loop in H as [[]|(g & s & Hg & Hs)].
  apply in_section_records in Hs as (-> & Hw & Ht). now split.
Qed.

Lemma scraped_rows_well_formed_witness :
  In (age_group (row "Senior Men" "60kg" "120")) age_groups
  /\ word (weight_class (row "Senior Men" "60kg" "120"))
  /\ Forall (fun c => isspace c = false)
            (weight_standard (row "Senior Men" "60kg" "120")).
Proof.
  apply (@scraped_rows_well_formed boundary_text).
  vm_compute. right. left. reflexivity.
Defined.

(** ** The merged table *)

Lemma dict_get_none_iff {V} (k : str) (d : dict V) :
  dict_get k d = None <-> ~ In k (map fst d).
Proof.
  induction d as [|[k' v] d IH]; simpl; [tauto|].
  destruct (str_eqb k k') eqn:E.
  - apply str_eqb_eq in E. subst k'. split; [discriminate | tauto].
  - apply str_eqb_neq in E. rewrite IH. split.
    + intros H [H1|H1]; [congruence | tauto].
    + tauto.
Qed.

Lemma dict_set_keys_present {V} (k : str) (v : V) (d : dict V) :
  dict_get k d <> None -> map fst (dict_set k v d) = map fst d.
Proof.
  induction d as [|[k' v'] d IH]; simpl; [congruence|].
  destruct (str_eqb k k') eqn:E; simpl; [reflexivity|].
  intros H. now rewrite IH.
Qed.

Lemma dict_set_keys_absent {V} (k : str) (v : V) (d : dict V) :
  dict_get k d = None -> map fst (dict_set k v d) = map fst d ++ [k].
Proof.
  induction d as [|[k' v'] d IH]; simpl; [reflexivity|].
  destruct (str_eqb k k') eqn:E; simpl; [discriminate|].
  intros H. now rewrite IH.
Qed.

Lemma dict_set_nodup {V} (k : str) (v : V) (d : dict V) :
  NoDup (map fst d) -> NoDup (map fst (dict_set k v d)).
Proof.
  intros H. destruct (dict_get k d) eqn:E.
  - rewrite dict_set_keys_present; [exact H | congruence].
  - rewrite dict_set_keys_absent by exact E.
    apply dict_get_none_iff in E.
    apply NoDup_rev in H. rewrite <- (rev_involutive (map fst d ++ [k])).
    apply NoDup_rev. rewrite rev_app_distr. simpl.
    constructor; [|exact H]. now rewrite <- in_rev.
Qed.

Lemma dict_set_forall {V} (P : V -> Prop) (k : str) (v : V) (d : dict V) :
  Forall (fun kv => P (snd kv)) d -> P v ->
  Forall (fun kv => P (snd kv)) (dict_set k v d).
Proof.
  intros H Hv. induction H as [|[k' v'] d Hk Hd IH]; simpl.
  - constructor; [exact Hv | constructor].
  - destruct (str_eqb k k'); constructor; assumption.
Qed.

Lemma dict_get_forall {V} (P : V -> Prop) (k : str) (v : V) (d : dict V) :
  Forall (fun kv => P (snd kv)) d -> dict_get k d = Some v -> P v.
Proof.
  induction 1 as [|[k' v'] d Hk Hd IH]; simpl; [discriminate|].
  destruct (str_eqb k k'); [|exact IH]. now intros [= <-].
Qed.

Lemma table_inv_store (data : table) (bracket wc : str) (weights : dict leaf)
      (lf : leaf) :
  table_inv data ->
  dict_get bracket data = Some weights ->
  table_inv (dict_set bracket (dict_set wc lf weights) data).
Proof.
  intros [Hk Hn] Hb. split.
  - rewrite dict_set_keys_present; [exact Hk | congruence].
  - apply (@dict_set_forall _ (fun w : dict leaf => NoDup (map fst w)));
      [exact Hn|].
    apply dict_set_nodup.
    eapply (@dict_get_forall _ (fun w => NoDup (map fst w))); eassumption.
Qed.

Lemma process_a_inv (data data' : table) (e : entry) :
  table_inv data -> process_a data e = Ok data' -> table_inv data'.
Proof.
  intros Hi. unfold process_a.
  destruct (entry_key e) as [[[br wc] x]|]; [|discriminate]. cbn [bind].
  destruct (dict_get br data) as [weights|] eqn:Eb; [|discriminate].
  destruct (dict_get wc weights).
  - now intros [= <-].
  - intros [= <-]. now apply table_inv_store.
Qed.

Lemma process_b_inv (data data' : table) (e : entry) :
  table_inv data -> process_b data e = Ok data' -> table_inv data'.
Proof.
  intros Hi. unfold process_b.
  destruct (entry_key e) as [[[br wc] x]|]; [|discriminate]. cbn [bind].
  destruct (dict_get br data) as [weights|] eqn:Eb; [|discriminate].
  destruct (dict_get wc weights); intros [= <-]; now apply table_inv_store.
Qed.

Lemma foldM_inv {S X} (P : S -> Prop) (f : S -> X -> result S)
      (l : list X) :
  (forall s x s', P s -> f s x = Ok s' -> P s') ->
  forall s s', P s -> foldM f l s = Ok s' -> P s'.
Proof.
  intros Hstep. induction l as [|x l IH]; intros s s' Hs; simpl.
  - now intros [= <-].
  - destruct (f s x) as [s1|] eqn:E; [|discriminate]. simpl.
    apply IH. exact (Hstep _ _ _ Hs E).
Qed.

Lemma empty_table_inv : table_inv empty_table.
Proof.
  split; [reflexivity|]. repeat constructor.
Qed.

Lemma merge_inv (A B : list entry) (data : table) :
  merge A B = Ok data -> table_inv data.
Proof.
  unfold merge.
  destruct (foldM process_a A empty_table) as [d1|] eqn:Ea; [|discriminate].
  cbn [bind]. intros Eb.
  assert (H1 : table_inv d1).
  { eapply (@foldM_inv _ _ table_inv process_a A);
      [|apply empty_table_inv | exact Ea].
    intros s x s' Hs E. eapply process_a_inv; eassumption. }
  eapply (@foldM_inv _ _ table_inv process_b B); [|exact H1 | exact Eb].
  intros s x s' Hs E. eapply process_b_inv; eassumption.
Qed.

Lemma table_inv_shape (data : table) :
  table_inv data ->
  exists youth junior senior,
    data = [(L "Youth", youth); (L "Junior", junior); (L "Senior", senior)]
    /\ NoDup (map fst youth) /\ NoDup (map fst junior)
    /\ NoDup (map fst senior).
Proof.
  intros [Hk Hn].
  destruct data as [|[k1 y] [|[k2 j] [|[k3 s] [|? ?]]]]; try discriminate.
  injection Hk as -> -> ->.
  inversion Hn as [|? ? H1 Hn1]; subst.
  inversion Hn1 as [|? ? H2 Hn2]; subst.
  inversion Hn2 as [|? ? H3 _]; subst.
  now exists y, j, s.
Qed.

(** X7.  Whatever rows come in, a table the merger returns has exactly the
    brackets Youth, Junior and Senior, in this order, and lists no
    gendered weight class twice within a bracket. *)
Theorem merged_table_shape (A B : list entry) (data : table) :
  merge A B = Ok data ->
  exists youth junior senior,
    data = [(L "Youth", youth); (L "Junior", junior); (L "Senior", senior)]
    /\ NoDup (map fst youth) /\ NoDup (map fst junior)
    /\ NoDup (map fst senior).
Proof. intros H. apply table_inv_shape. eapply merge_inv. exact H. Qed.

Lemma merged_table_shape_witness :
  exists youth junior senior,
    merge a_table_twice b_table_example
    = Ok [(L "Youth", youth); (L "Junior", junior); (L "Senior", senior)]
    /\ NoDup (map fst senior).
Proof.
  destruct (merge a_table_twice b_table_example) as [data|] eqn:E;
    [|vm_compute in E; discriminate].
  destruct (@merged_table_shape a_table_twice b_table_example data E)
    as (y & j & s & Ed & _ & _ & Hs).
  exists y, j, s. split; [now rewrite <- Ed | exact Hs].
Defined.




(** ** Stability of the order *)

Section StableFilter.

Variables (A K : Type) (ltb : K -> K -> bool) (same : K -> bool).

Hypothesis same_not_less :
  forall x y, same x = true -> same y = true -> ltb x y = false.

Lemma insert_stable_filter (x : K * A) (l : list (K * A)) :
  filter (fun y => same (fst y)) (insert_stable ltb x l)
  = filter (fun y => same (fst y)) (x :: l).
Proof.
  induction l as [|y l IH]; [reflexivity|].
  cbn [insert_stable]. destruct (ltb (fst y) (fst x)) eqn:E; [|reflexivity].
  cbn [filter] in *. rewrite IH.
  destruct (same (fst y)) eqn:Ey; [|reflexivity].
  destruct (same (fst x)) eqn:Ex; [|reflexivity].
  rewrite (same_not_less Ey Ex) in E. discriminate.
Qed.

Lemma stable_sort_filter (l : list (K * A)) :
  filter (fun y => same (fst y)) (stable_sort ltb l)
  = filter (fun y => same (fst y)) l.
Proof.
  induction l as [|x l IH]; [reflexivity|].
  cbn [stable_sort]. rewrite insert_stable_filter.
  cbn [filter]. now rewrite IH.
Qed.

End StableFilter.

Lemma pyfloat_same_eq (x y : pyfloat) : pyfloat_same x y = true -> x = y.
Proof.
  destruct x as [|s|j], y as [|t|k]; simpl; try discriminate;
    try reflexivity.
  - intros H. apply Bool.eqb_prop in H. now subst.
  - rewrite Z.eqb_eq. now intros ->.
Qed.

Lemma sort_key_same_eq (k1 k2 : sort_key) :
  sort_key_same k1 k2 = true -> k1 = k2.
Proof.
  destruct k1 as [g1 w1], k2 as [g2 w2]. unfold sort_key_same. simpl.
  rewrite andb_true_iff, str_eqb_eq.
  intros [-> H]. apply pyfloat_same_eq in H. now subst.
Qed.

Lemma key_ltb_irrefl (k : sort_key) : key_ltb k k = false.
Proof.
  unfold key_ltb. rewrite str_eqb_refl.
  destruct (float_eqb (snd k) (snd k)); [reflexivity|].
  destruct (snd k) as [|[|]|x]; simpl; try reflexivity.
  apply Z.ltb_irrefl.
Qed.

Lemma filter_keyed (k : sort_key) (l : list (sort_key * (str * leaf))) :
  Forall (fun p => weight_class_sort_key (fst (snd p)) = Ok (fst p)) l ->
  filter (has_key k) (map snd l)
  = map snd (filter (fun p => sort_key_same k (fst p)) l).
Proof.
  induction 1 as [|p l Hp _ IH]; [reflexivity|].
  cbn [map filter]. unfold has_key at 1. rewrite Hp.
  destruct (sort_key_same k (fst p)); cbn [map]; now rewrite IH.
Qed.

(** X9.  Items with the same sort key are emitted in the order the table
    holds them, which is the order their keys were first met.  So the
    open classes of one gender, all of weight infinity, keep that order
    whatever their numbers are.  (Stated for keys without a NaN, for
    which the outcome of [sorted] is fixed.) *)
Theorem equal_keys_keep_order
        (weights : dict leaf) (keyed : list (sort_key * (str * leaf))) :
  mapM sort_key_of_item weights = Ok keyed ->
  (forall k it, In (k, it) keyed -> snd k <> FNan) ->
  exists items,
    sorted_items weights = Ok items
    /\ forall k, filter (has_key k) items = filter (has_key k) weights.
Proof.
  intros Hk _. destruct (mapM_keyed _ Hk) as [Hm Hkey].
  exists (map snd (stable_sort key_ltb keyed)). split.
  - unfold sorted_items. now rewrite Hk.
  - intros k. rewrite <- Hm. rewrite !filter_keyed.
    + f_equal. apply stable_sort_filter.
      intros x y Hx Hy. apply sort_key_same_eq in Hx, Hy. subst x y.
      apply key_ltb_irrefl.
    + exact Hkey.
    + now rewrite <- stable_sort_perm.
Qed.

Lemma equal_keys_keep_order_witness :
  exists items,
    sorted_items open_classes = Ok items
    /\ map fst (filter (has_key (L "Male", FInf false)) items)
       = [L "Male +109kg"; L "Male +87kg"].
Proof.
  destruct (@equal_keys_keep_order open_classes
              [((L "Male", FInf false), (L "Male +109kg", lf0));
               ((L "Male", FFin (81 * 2 ^ ulp_exp)), (L "Male 81kg", lf0));
               ((L "Male", FInf false), (L "Male +87kg", lf0))])
    as (items & Hs & Hf).
  - vm_compute. reflexivity.
  - simpl. intros k it [H|[H|[H|[]]]]; injection H as <- _; discriminate.
  - exists items. split; [exact Hs|]. rewrite Hf. vm_compute. reflexivity.
Defined.

(** ** Which exceptions can come up *)

Lemma float_of_str_err (s : str) (e : exn) :
  float_of_str s = Err e -> e = ValueError.
Proof.
  unfold float_of_str. destruct (drop_underscores zero s) as [s'|].
  - destruct (match strip_float s' with
              | "-"%char :: t => (true, t)
              | "+"%char :: t => (false, t)
              | t => (false, t)
              end) as [neg body].
    destruct (parse_unsigned body); [discriminate | congruence].
  - congruence.
Qed.

Lemma weight_class_sort_key_err (s : str) (e : exn) :
  weight_class_sort_key s = Err e -> e = ValueError.
Proof.
  unfold weight_class_sort_key.
  destruct (split_first " " s) as [[g w]|]; [|congruence].
  destruct (startswith (L "+") w); [discriminate|].
  destruct (float_of_str (replace (L "kg") [] w)) eqn:E; [discriminate|].
  cbn [bind]. intros [= <-]. now apply float_of_str_err in E.
Qed.

Lemma mapM_err_inv {A B} (f : A -> result B) (l : list A) (e : exn) :
  mapM f l = Err e -> exists x, In x l /\ f x = Err e.
Proof.
  induction l as [|x l IH]; simpl; [discriminate|].
  destruct (f x) as [y|e1] eqn:E; simpl.
  - destruct (mapM f l) as [ys|e2]; simpl; [discriminate|].
    intros [= <-]. destruct (IH eq_refl) as (x' & Hin & Hx).
    exists x'. split; [now right | exact Hx].
  - intros [= <-]. exists x. split; [now left | exact E].
Qed.

Lemma foldM_err_inv {S X} (P : S -> Prop) (f : S -> X -> result S)
      (l : list X) :
  (forall s x s', P s -> f s x = Ok s' -> P s') ->
  forall s e, P s -> foldM f l s = Err e ->
              exists x s1, In x l /\ P s1 /\ f s1 x = Err e.
Proof.
  intros Hstep. induction l as [|x l IH]; intros s e Hs; simpl;
    [discriminate|].
  destruct (f s x) as [s'|e1] eqn:E; simpl.
  - intros H. destruct (IH s' e (Hstep _ _ _ Hs E) H) as (x' & s1 & Hin & H1).
    exists x', s1. split; [now right | exact H1].
  - intros [= <-]. exists x, s. split; [now left|]. now split.
Qed.

(** The sorting and printing half raises nothing but [ValueError]. *)
Lemma blocks_err (data : table) (e : exn) :
  mapM (fun kv => bracket_text (fst kv) (snd kv)) data = Err e ->
  e = ValueError.
Proof.
  intros H. apply mapM_err_inv in H as ([br w] & _ & H).
  cbn [fst snd] in H. unfold bracket_text, sorted_items in H.
  destruct (mapM sort_key_of_item w) as [keyed|e1] eqn:E;
    [discriminate|].
  cbn [bind] in H. injection H as <-.
  apply mapM_err_inv in E as (it & _ & E).
  unfold sort_key_of_item in E.
  destruct (weight_class_sort_key (fst it)) as [k|e2] eqn:E2;
    [discriminate|].
  cbn [bind] in E. injection E as <-.
  now apply weight_class_sort_key_err in E2.
Qed.

Lemma valid_bracket_iff (br : str) (data : table) :
  table_inv data -> (dict_get br data <> None <-> valid_bracket br).
Proof.
  intros [Hk _]. split.
  - intros H. destruct (dict_get br data) eqn:E; [|contradiction].
    assert (Hin : In br (map fst data)).
    { destruct (in_dec (list_eq_dec ascii_dec) br (map fst data))
        as [Hin|Hn]; [exact Hin|].
      apply dict_get_none_iff in Hn. congruence. }
    rewrite Hk in Hin. simpl in Hin. unfold valid_bracket.
    destruct Hin as [<- | [<- | [<- | []]]]; tauto.
  - intros Hv H. apply dict_get_none_iff in H. apply H. rewrite Hk.
    simpl. destruct Hv as [-> | [-> | ->]]; tauto.
Qed.

(** The key of a row whose age group is one of the six labels. *)
Lemma entry_key_labelled (e : entry) :
  In (age_group e) age_groups ->
  exists br gender,
    valid_bracket br
    /\ entry_key e
       = (x <- float_of_str (weight_standard e) ;;
          standard <- int_of_float x ;;
          Ok (br, gender ++ L " " ++ weight_class e, standard)).
Proof.
  destruct e as [ag wc std]. cbn [age_group weight_class weight_standard].
  unfold valid_bracket.
  intros H. repeat (destruct H as [<- | H]; [eexists _, _; split;
    [|unfold entry_key; cbn [age_group weight_class weight_standard];
      reflexivity]; tauto|]).
  destruct H.
Qed.

Lemma int_of_float_err (x : pyfloat) (e : exn) :
  int_of_float x = Err e -> e = ValueError \/ e = OverflowError.
Proof. destruct x; simpl; intros [= <-]; tauto. Qed.

Lemma process_err_labelled (step : table -> entry -> result table)
      (data : table) (e : entry) (err : exn) :
  step = process_a \/ step = process_b ->
  table_inv data ->
  In (age_group e) age_groups ->
  step data e = Err err ->
  err = ValueError \/ err = OverflowError.
Proof.
  intros Hstep Hi Hl.
  destruct (entry_key_labelled e Hl) as (br & g & Hv & Hk).
  assert (Hb : dict_get br data <> None) by now apply valid_bracket_iff.
  destruct (dict_get br data) as [w|] eqn:Eb; [|contradiction].
  destruct Hstep as [-> | ->]; [unfold process_a | unfold process_b];
    rewrite Hk;
    (destruct (float_of_str (weight_standard e)) as [x|e1] eqn:Ef;
     [|cbn [bind]; intros [= <-]; left; now apply float_of_str_err in Ef]);
    cbn [bind];
    (destruct (int_of_float x) as [n|e2] eqn:Ei;
     [|cbn [bind]; intros [= <-]; now apply int_of_float_err in Ei]);
    cbn [bind]; rewrite Eb; destruct (dict_get _ w); discriminate.
Qed.

Lemma labelled_rows_error_kinds (A B : list entry) (err : exn) :
  (forall e, In e (A ++ B) -> In (age_group e) age_groups) ->
  format_as_typescript A B = Err err ->
  err = ValueError \/ err = OverflowError.
Proof.
  intros Hl. unfold format_as_typescript.
  destruct (merge A B) as [data|e1] eqn:Em; cbn [bind].
  - destruct (mapM (fun kv => bracket_text (fst kv) (snd kv)) data)
      as [blocks|e2] eqn:Eb; [discriminate|].
    cbn [bind]. intros [= <-]. left. now apply blocks_err in Eb.
  - intros [= <-]. unfold merge in Em.
    destruct (foldM process_a A empty_table) as [d1|e2] eqn:Ea;
      cbn [bind] in Em.
    + apply (@foldM_err_inv _ _ table_inv process_b B) in Em
        as (x & s1 & Hin & Hs1 & Hx).
      * apply (@process_err_labelled process_b s1 x e1); auto.
        apply Hl. apply in_or_app. now right.
      * intros s x s' Hs E. eapply process_b_inv; eassumption.
      * eapply (@foldM_inv _ _ table_inv process_a A);
          [|apply empty_table_inv | exact Ea].
        intros s x s' Hs E. eapply process_a_inv; eassumption.
    + injection Em as ->.
      apply (@foldM_err_inv _ _ table_inv process_a A) in Ea
        as (x & s1 & Hin & Hs1 & Hx).
      * apply (@process_err_labelled process_a s1 x e1); auto.
        apply Hl. apply in_or_app. now left.
      * intros s x s' Hs E. eapply process_a_inv; eassumption.
      * apply empty_table_inv.
Qed.

Lemma scraped_age_group (raw : str) (e : entry) :
  In e (scrape_text raw) -> In (age_group e) age_groups.
Proof.
  intros H. apply in_scrape_loop in H as [[]|(g & s & Hg & Hs)].
  apply in_section_records in Hs as (-> & _). exact Hg.
Qed.

(** X10.  Whatever the two texts are, a run can only end in the [ValueError]
    of [float] on a malformed number or the [OverflowError] of [int] on an
    infinite one: the rows the scraper makes always have a known bracket,
    so [format_as_typescript] raises no [KeyError] and no [IndexError] on
    them. *)
Theorem pipeline_error_kinds (a_text b_text : str) (err : exn) :
  pipeline a_text b_text = Err err ->
  err = ValueError \/ err = OverflowError.
Proof.
  unfold pipeline. apply labelled_rows_error_kinds.
  intros e H. apply in_app_or in H as [H|H];
    eapply scraped_age_group; exact H.
Qed.

Lemma pipeline_error_kinds_witness :
  pipeline upper_kg_text [] = Err ValueError
  /\ (ValueError = ValueError \/ ValueError = OverflowError).
Proof.
  assert (H : pipeline upper_kg_text [] = Err ValueError)
    by (vm_compute; reflexivity).
  split; [exact H|].
  exact (@pipeline_error_kinds upper_kg_text [] ValueError H).
Defined.





(** ** When a text is returned *)

Lemma mapM_ok {A B} (f : A -> result B) (l : list A) :
  (forall x, In x l -> exists y, f x = Ok y) -> exists ys, mapM f l = Ok ys.
Proof.
  induction l as [|x l IH]; intros H.
  - now exists [].
  - destruct (H x (or_introl eq_refl)) as [y Hy].
    destruct IH as [ys Hys]; [intros z Hz; apply H; now right|].
    exists (y :: ys). simpl. now rewrite Hy, Hys.
Qed.

Lemma in_dict_get {V} (k : str) (v : V) (d : dict V) :
  NoDup (map fst d) -> In (k, v) d -> dict_get k d = Some v.
Proof.
  induction d as [|[k' v'] d IH]; intros Hn Hin; [contradiction|].
  simpl in Hn. inversion Hn as [|? ? Hk Hn']; subst. simpl.
  destruct Hin as [[= -> ->]|Hin].
  - now rewrite str_eqb_refl.
  - destruct (str_eqb k k') eqn:E; [|now apply IH].
    apply str_eqb_eq in E. subst k'. exfalso. apply Hk.
    apply in_map_iff. now exists (k, v).
Qed.

Lemma first_std_in (k : str * str) (x : Z) (rows : list (str * str * Z)) :
  first_std k rows = Some x -> In (k, x) rows.
Proof.
  induction rows as [|[k' x'] rows IH]; simpl; [discriminate|].
  destruct (key_eqb k k') eqn:E.
  - apply key_eqb_eq in E. subst k'. intros [= ->]. now left.
  - intros H. right. now apply IH.
Qed.

Lemma last_std_in (k : str * str) (x : Z) (rows : list (str * str * Z)) :
  last_std k rows = Some x -> In (k, x) rows.
Proof.
  induction rows as [|[k' x'] rows IH]; simpl; [discriminate|].
  destruct (last_std k rows) as [y|].
  - intros [= ->]. right. now apply IH.
  - destruct (key_eqb k k') eqn:E; [|discriminate].
    apply key_eqb_eq in E. subst k'. intros [= ->]. now left.
Qed.

Lemma table_keys_nodup (data : table) :
  table_inv data -> NoDup (map fst data).
Proof.
  intros [-> _]. simpl.
  repeat constructor; simpl; intros H;
    repeat (destruct H as [H|H]; [discriminate|]); exact H.
Qed.

(** Every key the merged table holds is the key of one of the rows. *)
Lemma merged_key_from_row (A B : list entry) (ka kb : list (str * str * Z))
      (data : table) (br wc : str) (w : dict leaf) (lf : leaf) :
  mapM entry_key A = Ok ka ->
  mapM entry_key B = Ok kb ->
  (forall br wc x, In (br, wc, x) (ka ++ kb) -> valid_bracket br) ->
  merge A B = Ok data ->
  In (br, w) data -> In (wc, lf) w ->
  exists x, In (br, wc, x) (ka ++ kb).
Proof.
  intros Ha Hb Hv Hm Hbr Hwc.
  destruct (@merge_lookup A B ka kb Ha Hb Hv) as (data' & Hm' & Hl).
  rewrite Hm in Hm'. injection Hm' as <-.
  pose proof (merge_inv A B Hm) as Hi.
  assert (E : lookup2 br wc data <> None).
  { unfold lookup2.
    rewrite (in_dict_get br w data (table_keys_nodup Hi) Hbr).
    intros E. apply dict_get_none_iff in E. apply E.
    apply in_map_iff. now exists (wc, lf). }
  rewrite Hl in E.
  destruct (first_std (br, wc) ka) as [x|] eqn:E1.
  - exists x. apply in_or_app. left. now apply first_std_in.
  - destruct (last_std (br, wc) kb) as [y|] eqn:E2.
    + exists y. apply in_or_app. right. now apply last_std_in.
    + now contradiction E.
Qed.

(** X12.  When every row of both tables has a key, with a bracket among Youth,
    Junior and Senior and a gendered weight class whose sort key can be
    computed, [format_as_typescript] returns a text. *)
Theorem well_formed_tables_are_formatted
        (A B : list entry) (ka kb : list (str * str * Z)) :
  mapM entry_key A = Ok ka ->
  mapM entry_key B = Ok kb ->
  (forall br wc x,
      In (br, wc, x) (ka ++ kb) ->
      valid_bracket br /\ exists k, weight_class_sort_key wc = Ok k) ->
  exists out, format_as_typescript A B = Ok out.
Proof.
  intros Ha Hb Hw.
  assert (Hv : forall br wc x, In (br, wc, x) (ka ++ kb) -> valid_bracket br).
  { intros br wc x H. now apply (Hw br wc x). }
  destruct (@merge_lookup A B ka kb Ha Hb Hv) as (data & Hm & _).
  unfold format_as_typescript. rewrite Hm. cbn [bind].
  destruct (@mapM_ok _ _ (fun kv => bracket_text (fst kv) (snd kv)) data)
    as [blocks ->].
  - intros [br w] Hbr. cbn [fst snd]. unfold bracket_text, sorted_items.
    destruct (@mapM_ok _ _ sort_key_of_item w) as [keyed ->].
    + intros [wc lf] Hwc. unfold sort_key_of_item. cbn [fst].
      destruct (@merged_key_from_row A B ka kb data br wc w lf
                  Ha Hb Hv Hm Hbr Hwc) as [x Hx].
      destruct (Hw br wc x Hx) as [_ [k ->]]. now eexists.
    + now eexists.
  - now eexists.
Qed.

Lemma well_formed_tables_are_formatted_witness :
  exists out, format_as_typescript a_table_example b_table_example = Ok out.
Proof.
  apply (@well_formed_tables_are_formatted a_table_example b_table_example
           [(L "Senior", L "Male 60kg", 120%Z);
            (L "Senior", L "Female 55kg", 100%Z)]
           [(L "Senior", L "Male 60kg", 110%Z);
            (L "Junior", L "Male 67kg", 90%Z)]).
  - vm_compute. reflexivity.
  - vm_compute. reflexivity.
  - simpl. unfold valid_bracket.
    intros br wc x [H|[H|[H|[H|[]]]]]; injection H as <- <- _;
      (split; [tauto|]); eexists; vm_compute; reflexivity.
Defined.

(** ** The sort key *)

Lemma split_first_app (g rest : str) :
  ~ In " "%char g -> split_first " " (g ++ " "%char :: rest) = Some (g, rest).
Proof.
  induction g as [|c g IH]; intros H; [reflexivity|].
  simpl. destruct (Ascii.eqb c " ") eqn:E.
  - apply Ascii.eqb_eq in E. subst c. exfalso. apply H. now left.
  - rewrite IH; [reflexivity|]. intros Hin. apply H. now right.
Qed.

Lemma split_first_none (s : str) :
  ~ In " "%char s -> split_first " " s = None.
Proof.
  induction s as [|c s IH]; intros H; [reflexivity|].
  simpl. destruct (Ascii.eqb c " ") eqn:E.
  - apply Ascii.eqb_eq in E. subst c. exfalso. apply H. now left.
  - rewrite IH; [reflexivity|]. intros Hin. apply H. now right.
Qed.

(** X13.  The key is cut at its first space.  What follows a [+] is never
    read: an open class has the weight infinity whatever its number, and
    a malformed one does not raise.  Any other weight is what [float]
    makes of it with every [kg] taken out.  A key without a space raises
    [ValueError]. *)
Theorem sort_key_by_first_space (g w : str) :
  ~ In " "%char g ->
  weight_class_sort_key (g ++ L " +" ++ w) = Ok (g, FInf false)
  /\ weight_class_sort_key (g ++ L " " ++ w)
     = (if startswith (L "+") w then Ok (g, FInf false)
        else x <- float_of_str (replace (L "kg") [] w) ;; Ok (g, x))
  /\ weight_class_sort_key g = Err ValueError.
Proof.
  intros H. unfold weight_class_sort_key. split; [|split].
  - change (g ++ L " +" ++ w) with (g ++ " "%char :: "+"%char :: w).
    now rewrite (@split_first_app g _ H).
  - change (g ++ L " " ++ w) with (g ++ " "%char :: w).
    now rewrite (@split_first_app g _ H).
  - now rewrite (@split_first_none g H).
Qed.

Lemma sort_key_by_first_space_witness :
  weight_class_sort_key (L "Male +abc") = Ok (L "Male", FInf false)
  /\ weight_class_sort_key (L "Male") = Err ValueError.
Proof.
  destruct (@sort_key_by_first_space (L "Male") (L "abc")) as (H1 & _ & H3).
  - simpl. intros [H|[H|[H|[H|[]]]]]; discriminate.
  - split; [exact H1 | exact H3].
Defined.

(** ** Reading a standard *)

Lemma digit_facts (c : ascii) :
  isdigit c = true ->
  Ascii.eqb c "_" = false
  /\ isspace_float c = false
  /\ lower c = c
  /\ Ascii.eqb c "i" = false /\ Ascii.eqb c "n" = false
  /\ c <> "-"%char /\ c <> "+"%char
  /\ (0 <= digit_val c <= 9)%Z.
Proof.
  destruct c as [[] [] [] [] [] [] [] []]; vm_compute; intros H;
    try discriminate H; repeat split; discriminate.
Qed.

Lemma drop_underscores_digits (prev : ascii) (ds : str) :
  Ascii.eqb prev "_" = false ->
  Forall (fun c => isdigit c = true) ds ->
  drop_underscores prev ds = Some ds.
Proof.
  intros Hp H. revert prev Hp.
  induction H as [|c ds Hc _ IH]; intros prev Hp; simpl.
  - now rewrite Hp.
  - destruct (digit_facts c Hc) as (E & _).
    rewrite E, Hc, andb_false_r. now rewrite (IH c E).
Qed.

Lemma lstrip_float_digits (ds : str) :
  Forall (fun c => isdigit c = true) ds -> lstrip_float ds = ds.
Proof.
  destruct 1 as [|c ds' Hc _]; [reflexivity|].
  simpl. destruct (digit_facts c Hc) as (_ & E & _). now rewrite E.
Qed.

Lemma strip_float_digits (ds : str) :
  Forall (fun c => isdigit c = true) ds -> strip_float ds = ds.
Proof.
  intros H. unfold strip_float. rewrite (lstrip_float_digits H).
  rewrite lstrip_float_digits; [apply rev_involutive | now apply Forall_rev].
Qed.

Lemma span_digits_all (ds : str) :
  Forall (fun c => isdigit c = true) ds -> span_digits ds = (ds, []).
Proof.
  induction 1 as [|c ds Hc _ IH]; [reflexivity|].
  simpl. now rewrite Hc, IH.
Qed.

Lemma decimal_val_acc (ds : str) (acc : Z) :
  Forall (fun c => isdigit c = true) ds ->
  (0 <= acc)%Z ->
  (0 <= fold_left (fun a c => 10 * a + digit_val c) ds acc)%Z.
Proof.
  intros H. revert acc. induction H as [|c ds Hc _ IH]; intros acc Ha;
    cbn [fold_left]; [exact Ha|].
  apply IH. destruct (digit_facts c Hc) as (_ & _ & _ & _ & _ & _ & _ & Hd).
  lia.
Qed.

Lemma decimal_val_nonneg (ds : str) :
  Forall (fun c => isdigit c = true) ds -> (0 <= decimal_val ds)%Z.
Proof. intros H. apply decimal_val_acc; [exact H | lia]. Qed.

Lemma round_half_even_mul (q b : Z) :
  (0 < b)%Z -> round_half_even (q * b) b = q.
Proof.
  intros Hb. unfold round_half_even.
  rewrite Z.div_mul, Z.mod_mul by lia.
  replace (2 * 0 <? b)%Z with true by (symmetry; apply Z.ltb_lt; lia).
  reflexivity.
Qed.

(** An integer below [2^53] is a double. *)
Lemma round_double_exact (m : Z) :
  (0 <= m < 2 ^ 53)%Z -> round_double m 1 = FFin (m * 2 ^ ulp_exp).
Proof.
  intros Hm. unfold round_double. rewrite Z.div_1_r.
  assert (Hp : (0 < 2 ^ ulp_exp)%Z) by (apply Z.pow_pos_nonneg; unfold ulp_exp; lia).
  destruct (Z.eq_dec m 0) as [->|Hn].
  - vm_compute. reflexivity.
  - assert (Hq : (m * 2 ^ ulp_exp <? 2 ^ 53)%Z = false).
    { apply Z.ltb_ge.
      assert (2 ^ 53 <= 2 ^ ulp_exp)%Z
        by (apply Z.pow_le_mono_r; unfold ulp_exp; lia).
      nia. }
    rewrite Hq.
    assert (Hlog : Z.log2 (m * 2 ^ ulp_exp) = (ulp_exp + Z.log2 m)%Z).
    { apply Z.log2_mul_pow2; [lia | unfold ulp_exp; lia]. }
    rewrite Hlog.
    assert (Hl : (0 <= Z.log2 m < 53)%Z).
    { split; [apply Z.log2_nonneg|].
      apply Z.log2_lt_pow2; lia. }
    set (sh := (ulp_exp + Z.log2 m - 52)%Z).
    assert (Hsh : (0 <= sh <= ulp_exp)%Z) by (unfold sh, ulp_exp in *; lia).
    assert (Hps : (0 < 2 ^ sh)%Z) by (apply Z.pow_pos_nonneg; lia).
    assert (Ea : (m * 2 ^ ulp_exp = (m * 2 ^ (ulp_exp - sh)) * 2 ^ sh)%Z).
    { rewrite <- Z.mul_assoc, <- Z.pow_add_r by lia.
      do 2 f_equal. lia. }
    rewrite Z.mul_1_l.
    replace (round_half_even (m * 2 ^ ulp_exp) (2 ^ sh))
      with (m * 2 ^ (ulp_exp - sh))%Z
      by (rewrite Ea; symmetry; now apply round_half_even_mul).
    rewrite <- Ea.
    replace (2 ^ (1024 + ulp_exp) <=? m * 2 ^ ulp_exp)%Z with false;
      [reflexivity|].
    symmetry. apply Z.leb_gt.
    rewrite Z.pow_add_r by (unfold ulp_exp; lia).
    assert (2 ^ 53 <= 2 ^ 1024)%Z by (apply Z.pow_le_mono_r; lia).
    nia.
Qed.

Lemma parse_unsigned_digits (c : ascii) (ds : str) :
  Forall (fun c => isdigit c = true) (c :: ds) ->
  parse_unsigned (c :: ds) = Some (round_double (decimal_val (c :: ds)) 1).
Proof.
  intros H. inversion H as [|? ? Hc Hds]; subst.
  destruct (digit_facts c Hc) as (_ & _ & El & Ei & En & _).
  unfold parse_unsigned. cbn [map]. rewrite El.
  unfold L. cbn [list_ascii_of_string str_eqb]. rewrite Ei, En.
  cbn [andb orb]. unfold parse_decimal.
  rewrite (span_digits_all H). rewrite app_nil_r.
  cbn [length Z.of_nat]. cbn [Z.sub Z.opp Z.add Z.leb Z.compare].
  now rewrite Z.pow_0_r, Z.mul_1_r.
Qed.

(** X14.  A standard written with digits alone and below [2^53] is read as the
    number it writes: [int(float(s))] is that number. *)
Theorem digits_are_read_exactly (ds : str) :
  ds <> [] ->
  Forall (fun c => isdigit c = true) ds ->
  (decimal_val ds < 2 ^ 53)%Z ->
  (x <- float_of_str ds ;; int_of_float x) = Ok (decimal_val ds).
Proof.
  intros Hne Hd Hlt. destruct ds as [|c ds]; [contradiction|].
  unfold float_of_str.
  rewrite (drop_underscores_digits zero eq_refl Hd).
  rewrite (strip_float_digits Hd).
  inversion Hd as [|? ? Hc Hds]; subst.
  destruct (digit_facts c Hc) as (_ & _ & _ & _ & _ & Hm & Hp & _).
  assert (E : (match c :: ds with
               | "-"%char :: t => (true, t)
               | "+"%char :: t => (false, t)
               | t => (false, t)
               end) = (false, c :: ds)).
  { destruct c as [[] [] [] [] [] [] [] []]; try reflexivity;
      [now contradiction Hp | now contradiction Hm]. }
  rewrite E. rewrite (parse_unsigned_digits Hd). cbn [bind].
  rewrite round_double_exact.
  - cbn [int_of_float]. f_equal. apply Z.quot_mul.
    unfold ulp_exp. apply Z.pow_nonzero; lia.
  - split; [now apply decimal_val_nonneg | exact Hlt].
Qed.

Lemma digits_are_read_exactly_witness :
  (x <- float_of_str (L "9007199254740991") ;; int_of_float x)
  = Ok 9007199254740991%Z.
Proof.
  apply (@digits_are_read_exactly (L "9007199254740991")).
  - discriminate.
  - repeat constructor.
  - vm_compute. reflexivity.
Defined.

(** ** Rows of a section *)

Lemma map_fst_combine {X Y} (l : list X) (l' : list Y) :
  length l = length l' -> map fst (combine l l') = l.
Proof.
  revert l'; induction l as [|x l IH]; intros [|y l'] H; simpl in *;
    try discriminate; [reflexivity|].
  f_equal. apply IH. lia.
Qed.

Lemma map_snd_combine {X Y} (l : list X) (l' : list Y) :
  length l = length l' -> map snd (combine l l') = l'.
Proof.
  revert l'; induction l as [|x l IH]; intros [|y l'] H; simpl in *;
    try discriminate; [reflexivity|].
  f_equal. apply IH. lia.
Qed.

(** X15.  When the two lists have the same length, the section gives one row
    for each position: the weight classes in their order, each with the
    total at the same position, all under the section's label. *)
Theorem rows_pair_positionally (group section : str) (wcs tots : list str) :
  extract_section_data section = (wcs, tots) ->
  length wcs = length tots ->
  map weight_class (section_records group section) = wcs
  /\ map weight_standard (section_records group section) = tots
  /\ Forall (fun e => age_group e = group) (section_records group section).
Proof.
  intros He Hl. unfold section_records. rewrite He.
  rewrite (proj2 (Nat.eqb_eq _ _) Hl). rewrite !map_map. cbn [weight_class weight_standard].
  split; [|split].
  - now apply map_fst_combine.
  - now apply map_snd_combine.
  - apply Forall_forall. intros e H. apply in_map_iff in H as (p & <- & _).
    reflexivity.
Qed.

Lemma rows_pair_positionally_witness :
  map weight_class
      (section_records (L "Senior Men")
         (L "Senior Men: Weight class: 60kg 65kg Total: 120 130kg"))
  = [L "60kg"; L "65kg"]
  /\ map weight_standard
         (section_records (L "Senior Men")
            (L "Senior Men: Weight class: 60kg 65kg Total: 120 130kg"))
     = [L "120"; L "130"].
Proof.
  destruct (@rows_pair_positionally (L "Senior Men")
              (L "Senior Men: Weight class: 60kg 65kg Total: 120 130kg")
              [L "60kg"; L "65kg"] [L "120"; L "130"]) as (H1 & H2 & _).
  - vm_compute. reflexivity.
  - reflexivity.
  - split; [exact H1 | exact H2].
Defined.

(** ** Whitespace and the run *)

(** X16.  Two runs on texts that have the same words, whatever whitespace
    separates them, end alike. *)
Theorem pipeline_whitespace_invariant (a1 b1 a2 b2 : str) :
  split_ws a1 = split_ws a2 ->
  split_ws b1 = split_ws b2 ->
  scrape_text a1 = scrape_text a2
  /\ pipeline a1 b1 = pipeline a2 b2.
Proof.
  intros Ha Hb.
  assert (Ea : scrape_text a1 = scrape_text a2).
  { unfold scrape_text. now rewrite !clean_text_join, Ha. }
  assert (Eb : scrape_text b1 = scrape_text b2).
  { unfold scrape_text. now rewrite !clean_text_join, Hb. }
  split; [exact Ea|]. unfold pipeline. now rewrite Ea, Eb.
Qed.

Lemma pipeline_whitespace_invariant_witness :
  pipeline spaced_one spaced_two = pipeline spaced_two spaced_one.
Proof.
  apply (@pipeline_whitespace_invariant spaced_one spaced_two
           spaced_two spaced_one); vm_compute; reflexivity.
Defined.

(** ** The order of the keys in the table *)

Lemma existsb_keys {V} (wc : str) (w : dict V) :
  existsb (str_eqb wc) (map fst w)
  = match dict_get wc w with Some _ => true | None => false end.
Proof.
  induction w as [|[k v] w IH]; [reflexivity|].
  simpl. destruct (str_eqb wc k); [reflexivity | exact IH].
Qed.

Lemma dict_set_keys_add {V} (wc : str) (v : V) (w : dict V) :
  map fst (dict_set wc v w) = add_new (map fst w) wc.
Proof.
  unfold add_new. rewrite existsb_keys.
  destruct (dict_get wc w) eqn:E.
  - apply dict_set_keys_present. congruence.
  - now apply dict_set_keys_absent.
Qed.

Lemma process_keys (step : table -> entry -> result table)
      (data data' : table) (e : entry) (br0 wc0 : str) (x : Z) :
  step = process_a \/ step = process_b ->
  step data e = Ok data' ->
  entry_key e = Ok (br0, wc0, x) ->
  forall br w,
    dict_get br data = Some w ->
    exists w',
      dict_get br data' = Some w'
      /\ map fst w' = if str_eqb br br0 then add_new (map fst w) wc0
                      else map fst w.
Proof.
  intros Hstep Hs Hk br w Hw.
  assert (Hset : forall lf w0,
             dict_get br0 data = Some w0 ->
             exists w',
               dict_get br (dict_set br0 (dict_set wc0 lf w0) data) = Some w'
               /\ map fst w' = if str_eqb br br0
                               then add_new (map fst w) wc0 else map fst w).
  { intros lf w0 Hb. destruct (str_eqb br br0) eqn:E.
    - apply str_eqb_eq in E. subst br0. rewrite dict_get_set_same.
      eexists. split; [reflexivity|].
      rewrite Hw in Hb. injection Hb as <-. apply dict_set_keys_add.
    - apply str_eqb_neq in E. rewrite dict_get_set_other by exact E.
      now exists w. }
  destruct Hstep as [-> | ->]; [unfold process_a in Hs | unfold process_b in Hs];
    rewrite Hk in Hs; cbn [bind] in Hs;
    destruct (dict_get br0 data) as [w0|] eqn:Eb; try discriminate;
    destruct (dict_get wc0 w0) as [lf0|] eqn:Ew;
    try (injection Hs as <-; now apply Hset).
  injection Hs as <-. exists w. split; [exact Hw|].
  destruct (str_eqb br br0) eqn:E; [|reflexivity].
  apply str_eqb_eq in E. subst br0. rewrite Hw in Eb. injection Eb as <-.
  unfold add_new. rewrite existsb_keys. now rewrite Ew.
Qed.

Lemma foldM_keys (step : table -> entry -> result table) (A : list entry) :
  step = process_a \/ step = process_b ->
  forall (ka : list (str * str * Z)) (data data' : table),
    mapM entry_key A = Ok ka ->
    foldM step A data = Ok data' ->
    forall br w,
      dict_get br data = Some w ->
      exists w',
        dict_get br data' = Some w'
        /\ map fst w' = fold_left add_new (bracket_classes br ka) (map fst w).
Proof.
  intros Hstep. induction A as [|e A IH]; intros ka data data' Hk Hf br w Hw.
  - injection Hk as <-. injection Hf as <-. now exists w.
  - apply mapM_cons_ok in Hk as ([[br0 wc0] x] & ka' & He & Hk' & ->).
    cbn [foldM] in Hf. destruct (step data e) as [d1|] eqn:Es; [|discriminate].
    cbn [bind] in Hf.
    destruct (@process_keys step data d1 e br0 wc0 x Hstep Es He br w Hw)
      as (w1 & Hw1 & Hk1).
    destruct (IH ka' d1 data' Hk' Hf br w1 Hw1) as (w' & Hw' & Hkeys).
    exists w'. split; [exact Hw'|]. rewrite Hkeys, Hk1.
    unfold bracket_classes. cbn [filter fst snd].
    destruct (str_eqb br br0); reflexivity.
Qed.

(** X17.  In each bracket the table holds the gendered weight classes in the
    order in which they are first met in the rows of the A-table followed
    by the rows of the B-table.  It is the order that decides between
    items with the same sort key. *)
Theorem keys_in_first_seen_order
        (A B : list entry) (ka kb : list (str * str * Z)) (data : table) :
  mapM entry_key A = Ok ka ->
  mapM entry_key B = Ok kb ->
  merge A B = Ok data ->
  forall br w,
    dict_get br data = Some w ->
    map fst w = first_seen (bracket_classes br (ka ++ kb)).
Proof.
  intros Ha Hb Hm br w Hw. unfold merge in Hm.
  destruct (foldM process_a A empty_table) as [d1|] eqn:Ea; [|discriminate].
  cbn [bind] in Hm.
  assert (Hi : table_inv data) by (apply (merge_inv A B); unfold merge;
                                   now rewrite Ea).
  assert (Hv : valid_bracket br).
  { apply (valid_bracket_iff br Hi). congruence. }
  assert (E0 : dict_get br empty_table = Some []).
  { destruct Hv as [-> | [-> | ->]]; reflexivity. }
  destruct (@foldM_keys process_a A (or_introl eq_refl) ka empty_table d1
              Ha Ea br [] E0) as (w1 & Hw1 & Hk1).
  destruct (@foldM_keys process_b B (or_intror eq_refl) kb d1 data
              Hb Hm br w1 Hw1) as (w2 & Hw2 & Hk2).
  rewrite Hw in Hw2. injection Hw2 as <-.
  rewrite Hk2, Hk1. unfold first_seen, bracket_classes.
  now rewrite filter_app, map_app, fold_left_app.
Qed.

Lemma keys_in_first_seen_order_witness :
  exists w,
    lookup_bracket (L "Senior") a_table_example b_table_example = Some w
    /\ map fst w = [L "Male 60kg"; L "Female 55kg"].
Proof.
  unfold lookup_bracket.
  destruct (merge a_table_example b_table_example) as [data|] eqn:Em;
    [|vm_compute in Em; discriminate].
  destruct (dict_get (L "Senior") data) as [w|] eqn:Ew;
    [|vm_compute in Em; injection Em as <-; vm_compute in Ew; discriminate].
  exists w. split; [reflexivity|].
  rewrite (@keys_in_first_seen_order a_table_example b_table_example
             [(L "Senior", L "Male 60kg", 120%Z);
              (L "Senior", L "Female 55kg", 100%Z)]
             [(L "Senior", L "Male 60kg", 110%Z);
              (L "Junior", L "Male 67kg", 90%Z)] data
             ltac:(vm_compute; reflexivity) ltac:(vm_compute; reflexivity)
             Em (L "Senior") w Ew).
  vm_compute. reflexivity.
Defined.

